(** * RPS_TOURNAMENT/app.py: the match state machine, the player registry,
      round resolution and the leaderboard views

    A shallow embedding of [app.py].  The two module-level globals
    [LEADERBOARD] and [CURRENT_MATCH] form the state that every request
    handler reads and mutates; handlers are computations in a state monad
    with exceptions, in which a raised exception keeps the mutations already
    made (nothing in Python rolls them back).

    Conventions of the model:
    - a Python [str] is a [string] whose characters are code points below
      256, so [str.strip], [str.split] and [str.lower] follow Python's rules
      on that range;
    - a Python [int] is a [Z];
    - a JSON value read from a request is a [value]: [None], a bool, an int
      or a str (arrays, objects and floats behave like the non-str cases for
      every operation of this program and are left out);
    - a request body is the dict that [request.get_json(silent=True) or {}]
      yields, a [gmap string value]: a JSON object, or the empty dict for a
      missing, malformed or falsy body (a body that is a non-empty array, a
      string or a number is not modelled);
    - [LEADERBOARD] is an insertion-ordered dict, an association list with
      distinct keys to which a new key is appended;
    - a reference to a [PlayerStats] object held by [LEADERBOARD] is the key
      it is stored under: the program never rebinds or deletes a key.

    The HTML routes ([home], [leaderboard_page], [web_start], [web_play])
    render templates or forward a form to the JSON handlers; they are not
    part of the model. *)

From stdpp Require Import base decidable option list sorting gmap strings.
From Stdlib Require Import ZArith Lia Ascii.

Local Open Scope Z_scope.

(** ** Python values, exceptions *)

Inductive value : Type :=
  | VNone
  | VBool (b : bool)
  | VInt (n : Z)
  | VStr (s : string).

Inductive exn : Type :=
  | ValueError (msg : string)
  | AttributeError
  | KeyError (key : string).

Inductive result (A : Type) : Type :=
  | Ok (a : A)
  | Raise (e : exn).
Arguments Ok {A} a.
Arguments Raise {A} e.

Global Instance value_eq_dec : EqDecision value.
Proof. solve_decision. Defined.
Global Instance exn_eq_dec : EqDecision exn.
Proof. solve_decision. Defined.

Global Instance result_ret : MRet result := @Ok.
Global Instance result_bind : MBind result := fun A B f m =>
  match m with
  | Ok a => f a
  | Raise e => Raise e
  end.
Global Instance result_fmap : FMap result := fun A B f m =>
  match m with
  | Ok a => Ok (f a)
  | Raise e => Raise e
  end.

(** Truth value of an object, as [bool(v)]. *)
Definition truthy (v : value) : bool :=
  match v with
  | VNone => false
  | VBool b => b
  | VInt n => negb (n =? 0)
  | VStr s => negb (bool_decide (s = ""))
  end.

(** [a or b]. *)
Definition py_or (a b : value) : value := if truthy a then a else b.

(** The receiver of a [str] method call: any other object has no such
    attribute. *)
Definition as_str (v : value) : result string :=
  match v with
  | VStr s => Ok s
  | _ => Raise AttributeError
  end.

(** [d[k]] on a dict. *)
Definition getitem {V : Type} (d : gmap string V) (k : string) : result V :=
  match d !! k with
  | Some v => Ok v
  | None => Raise (KeyError k)
  end.

(** [d.get(k, dflt)]. *)
Definition dict_get {V : Type} (d : gmap string V) (k : string) (dflt : V) : V :=
  default dflt (d !! k).

(** ** [str] methods *)

Module PyStr.

(** [c.isspace()] for a code point below 256. *)
Definition isspace (c : ascii) : bool :=
  let n := N_of_ascii c in
  ((9 <=? n) && (n <=? 13) || (28 <=? n) && (n <=? 32)
   || (n =? 133) || (n =? 160))%N.

(** [c.lower()] for a code point below 256: the upper-case letters are
    A-Z and U+00C0..U+00DE without the multiplication sign U+00D7. *)
Definition lower_char (c : ascii) : ascii :=
  let n := N_of_ascii c in
  if ((65 <=? n) && (n <=? 90)
      || (192 <=? n) && (n <=? 222) && negb (n =? 215))%N
  then ascii_of_N (n + 32) else c.

Fixpoint lower (s : string) : string :=
  match s with
  | EmptyString => EmptyString
  | String c s' => String (lower_char c) (lower s')
  end.

Fixpoint lstrip (s : string) : string :=
  match s with
  | EmptyString => EmptyString
  | String c s' => if isspace c then lstrip s' else s
  end.

Fixpoint rstrip (s : string) : string :=
  match s with
  | EmptyString => EmptyString
  | String c s' =>
      let r := rstrip s' in
      if isspace c && bool_decide (r = EmptyString) then EmptyString
      else String c r
  end.

Definition strip (s : string) : string := rstrip (lstrip s).

(** [s.split()]: the maximal runs of non-whitespace characters, scanning
    left to right with the run in progress in [cur]. *)
Fixpoint split_go (cur : string) (s : string) : list string :=
  match s with
  | EmptyString => if bool_decide (cur = EmptyString) then [] else [cur]
  | String c s' =>
      if isspace c then
        if bool_decide (cur = EmptyString) then split_go EmptyString s'
        else cur :: split_go EmptyString s'
      else split_go (cur +:+ String c EmptyString) s'
  end.

Definition split (s : string) : list string := split_go EmptyString s.

(** [sep.join(l)]. *)
Fixpoint join (sep : string) (l : list string) : string :=
  match l with
  | [] => EmptyString
  | [x] => x
  | x :: l' => x +:+ sep +:+ join sep l'
  end.

Fixpoint all_chars (P : ascii -> bool) (s : string) : bool :=
  match s with
  | EmptyString => true
  | String c s' => P c && all_chars P s'
  end.

(** A word: what [split] yields, non-empty and free of whitespace. *)
Definition word (w : string) : Prop :=
  w <> EmptyString /\ all_chars (fun c => negb (isspace c)) w = true.

End PyStr.

(** ** Game constants and round resolution *)

Definition MOVES : list string := ["rock"; "paper"; "scissors"].

Definition beats : gmap string string :=
  {[ "rock" := "scissors"; "paper" := "rock"; "scissors" := "paper" ]}.

(** [rps_result(move1, move2)]: 1 when player 1 wins, -1 when player 2
    wins, 0 on a tie. *)
Definition rps_result (move1 move2 : value) : result Z :=
  m1 ← PyStr.lower <$> (PyStr.strip <$> as_str (py_or move1 (VStr "")));
  m2 ← PyStr.lower <$> (PyStr.strip <$> as_str (py_or move2 (VStr "")));
  if negb (bool_decide (m1 ∈ MOVES)) || negb (bool_decide (m2 ∈ MOVES))
  then Raise (ValueError "Moves must be rock, paper, or scissors.")
  else if bool_decide (m1 = m2) then Ok 0
  else
    b ← getitem beats m1;
    Ok (if bool_decide (b = m2) then 1 else -1).

(** ** Insertion-ordered dicts *)

Section odict.
Context {V : Type}.

Definition odict : Type := list (string * V).

(** [d.get(k)], [None] when the key is absent. *)
Fixpoint od_get (k : string) (d : odict) : option V :=
  match d with
  | [] => None
  | (k', v) :: d' => if bool_decide (k = k') then Some v else od_get k d'
  end.

(** [k in d]. *)
Definition od_contains (k : string) (d : odict) : bool :=
  match od_get k d with Some _ => true | None => false end.

(** [d[k] = v]: an existing key keeps its position, a new one goes last. *)
Fixpoint od_set (k : string) (v : V) (d : odict) : odict :=
  match d with
  | [] => [(k, v)]
  | (k', v') :: d' =>
      if bool_decide (k = k') then (k, v) :: d' else (k', v') :: od_set k v d'
  end.

(** In-place mutation of the object stored under [k]. *)
Fixpoint od_alter (f : V -> V) (k : string) (d : odict) : odict :=
  match d with
  | [] => []
  | (k', v) :: d' =>
      if bool_decide (k = k') then (k', f v) :: d' else (k', v) :: od_alter f k d'
  end.

(** [d.values()], in insertion order. *)
Definition od_values (d : odict) : list V := d.*2.

End odict.
Arguments odict V : clear implicits.

(** ** [sorted] *)

Section sorted.
Context {A K : Type} (key : A -> K) (lt : K -> K -> bool).

(** [list.sort] compares keys with [<] only and is stable; the stable
    arrangement is what insertion from the right computes. *)
Fixpoint insert_stable (x : A) (l : list A) : list A :=
  match l with
  | [] => [x]
  | y :: l' => if lt (key y) (key x) then y :: insert_stable x l' else x :: y :: l'
  end.

Fixpoint sort_stable (l : list A) : list A :=
  match l with
  | [] => []
  | x :: l' => insert_stable x (sort_stable l')
  end.

(** [sorted(l, key=key, reverse=reverse)].  With [reverse=True] CPython
    reverses the list, sorts it stably in ascending order and reverses
    the result, which keeps the original order of equal keys. *)
Definition py_sorted (reverse : bool) (l : list A) : list A :=
  if reverse then list.reverse (sort_stable (list.reverse l)) else sort_stable l.

(** No element is followed, anywhere later, by one with a smaller key. *)
Definition ascending : list A -> Prop :=
  StronglySorted (fun x y => lt (key y) (key x) = false).

(** No element is followed, anywhere later, by one with a larger key. *)
Definition descending : list A -> Prop :=
  StronglySorted (fun x y => lt (key x) (key y) = false).

End sorted.

(** [<] on Python tuples of two ints. *)
Definition tuple_lt (a b : Z * Z) : bool :=
  (a.1 <? b.1) || ((a.1 =? b.1) && (a.2 <? b.2)).

(** ** Program state *)

Module PlayerStats.
Record t : Type := mk {
  name : string;
  score : Z;
  wins : Z;
  losses : Z;
  ties : Z;
  games_played : Z
}.

(** [PlayerStats(name=name)]. *)
Definition new (name : string) : t := mk name 0 0 0 0 0.

(** [asdict(self)]: the same fields as a dict, a copy. *)
Definition to_dict (self : t) : t := self.

Definition incr_score (ps : t) : t :=
  mk (name ps) (score ps + 1) (wins ps) (losses ps) (ties ps) (games_played ps).
Definition incr_wins (ps : t) : t :=
  mk (name ps) (score ps) (wins ps + 1) (losses ps) (ties ps) (games_played ps).
Definition incr_losses (ps : t) : t :=
  mk (name ps) (score ps) (wins ps) (losses ps + 1) (ties ps) (games_played ps).
Definition incr_ties (ps : t) : t :=
  mk (name ps) (score ps) (wins ps) (losses ps) (ties ps + 1) (games_played ps).
Definition incr_games_played (ps : t) : t :=
  mk (name ps) (score ps) (wins ps) (losses ps) (ties ps) (games_played ps + 1).
End PlayerStats.

Module Round.
(** An entry of [round_history]; the moves are stored as submitted. *)
Record t : Type := mk {
  round : Z;
  p1_move : value;
  p2_move : value;
  round_winner : option string
}.
End Round.

Module Match.
Record t : Type := mk {
  active : bool;
  round : Z;
  max_rounds : Z;
  p1 : option string;
  p2 : option string;
  p1_round_wins : Z;
  p2_round_wins : Z;
  round_history : list Round.t;
  locked_winner_as_p1 : bool
}.
End Match.

Module Summary.
(** The dict built by [match_summary]. *)
Record t : Type := mk {
  active : bool;
  round : Z;
  max_rounds : Z;
  p1 : option string;
  p2 : option string;
  p1_round_wins : Z;
  p2_round_wins : Z;
  winner : option string;
  overall_tie : bool;
  locked_winner_as_p1 : bool;
  round_history : list Round.t
}.
End Summary.

Module Views.
(** The dict built by [leaderboard_views]. *)
Record t : Type := mk {
  by_name : list PlayerStats.t;
  by_score : list PlayerStats.t
}.
End Views.

Record world : Type := World {
  LEADERBOARD : odict PlayerStats.t;
  CURRENT_MATCH : Match.t
}.

Definition initial_match : Match.t :=
  Match.mk false 0 10 None None 0 0 [] false.

Definition initial_world : world := World [] initial_match.

(** A reference to a [PlayerStats] object of [LEADERBOARD]. *)
Definition ref : Type := string.

(** ** Computations over the globals *)

Definition M (A : Type) : Type := world -> result A * world.

Global Instance M_ret : MRet M := fun A a w => (Ok a, w).
Global Instance M_bind : MBind M := fun A B f m w =>
  match m w with
  | (Ok a, w') => f a w'
  | (Raise e, w') => (Raise e, w')
  end.

Definition raise {A : Type} (e : exn) : M A := fun w => (Raise e, w).
Definition lift {A : Type} (r : result A) : M A := fun w => (r, w).
Definition get_leaderboard : M (odict PlayerStats.t) := fun w => (Ok (LEADERBOARD w), w).
Definition get_match : M Match.t := fun w => (Ok (CURRENT_MATCH w), w).
Definition set_leaderboard (f : odict PlayerStats.t -> odict PlayerStats.t) : M unit :=
  fun w => (Ok tt, World (f (LEADERBOARD w)) (CURRENT_MATCH w)).
Definition set_match (f : Match.t -> Match.t) : M unit :=
  fun w => (Ok tt, World (LEADERBOARD w) (f (CURRENT_MATCH w))).

(** Attribute update through a reference, [ps.field += 1]. *)
Definition mutate (ps : ref) (f : PlayerStats.t -> PlayerStats.t) : M unit :=
  set_leaderboard (od_alter f ps).

(** Reading the object behind a reference.  A key handed out by
    [ensure_player] is always present; the [KeyError] branch only makes the
    function total. *)
Definition deref (ps : ref) : M PlayerStats.t :=
  lb ← get_leaderboard;
  match od_get ps lb with
  | Some v => mret v
  | None => raise (KeyError ps)
  end.

(** [try: body except ValueError as e: handler(str(e))]. *)
Definition try_except_ValueError {A : Type} (body : M A) (handler : string -> M A) : M A :=
  fun w =>
    match body w with
    | (Raise (ValueError msg), w') => handler msg w'
    | r => r
    end.

(** ** Helpers of [app.py] *)

Definition normalize_name (name : value) : result string :=
  s ← as_str (py_or name (VStr ""));
  Ok (PyStr.join " " (PyStr.split (PyStr.strip s))).

Definition ensure_player (name : value) : M ref :=
  name ← lift (normalize_name name);
  if negb (truthy (VStr name)) then raise (ValueError "Player name cannot be empty.")
  else
    lb ← get_leaderboard;
    (if negb (od_contains name lb)
     then set_leaderboard (od_set name (PlayerStats.new name))
     else mret tt);;
    mret name.

(** [None] or a [str], as stored under ["p1"] and ["p2"]. *)
Definition opt_value (o : option string) : value :=
  match o with
  | Some s => VStr s
  | None => VNone
  end.

Definition current_players (cm : Match.t) : option string * option string :=
  (Match.p1 cm, Match.p2 cm).

Definition match_winner (cm : Match.t) : option string :=
  if Match.round cm <? Match.max_rounds cm then None
  else if Match.p1_round_wins cm >? Match.p2_round_wins cm then Match.p1 cm
  else if Match.p2_round_wins cm >? Match.p1_round_wins cm then Match.p2 cm
  else None.

Definition is_None {A : Type} (o : option A) : bool :=
  match o with
  | None => true
  | Some _ => false
  end.

Definition match_summary (cm : Match.t) : Summary.t :=
  let winner := match_winner cm in
  Summary.mk
    (Match.active cm)
    (Match.round cm)
    (Match.max_rounds cm)
    (Match.p1 cm)
    (Match.p2 cm)
    (Match.p1_round_wins cm)
    (Match.p2_round_wins cm)
    winner
    ((Match.round cm =? Match.max_rounds cm) && is_None winner)
    (Match.locked_winner_as_p1 cm)
    (Match.round_history cm).

Definition leaderboard_views (lb : odict PlayerStats.t) : Views.t :=
  let players := PlayerStats.to_dict <$> od_values lb in
  let by_name :=
    py_sorted (fun x => PyStr.lower (PlayerStats.name x)) String.ltb false players in
  let by_score :=
    py_sorted (fun x => (PlayerStats.score x, PlayerStats.wins x)) tuple_lt true players in
  Views.mk by_name by_score.

(** ** Responses *)

Inductive body : Type :=
  | JPlayer (player : PlayerStats.t)
  | JState (state : Summary.t)
  | JLeaderboard (leaderboard : Views.t)
  | JError (error : string).

(** The ["ok"] member of a response body. *)
Definition ok (b : body) : bool :=
  match b with
  | JError _ => false
  | _ => true
  end.

Record response : Type := Response { resp_body : body; resp_status : Z }.

(** [jsonify(b)] and [jsonify(b), 400]. *)
Definition jsonify (b : body) : response := Response b 200.
Definition jsonify_400 (b : body) : response := Response b 400.

(** ** Request handlers *)

Definition api_register_player (data : gmap string value) : M response :=
  try_except_ValueError
    (player ← ensure_player (dict_get data "name" (VStr ""));
     ps ← deref player;
     mret (jsonify (JPlayer (PlayerStats.to_dict ps))))
    (fun e => mret (jsonify_400 (JError e))).

Definition api_game_start (data : gmap string value) : M response :=
  p1 ← lift (normalize_name (dict_get data "p1" (VStr "")));
  p2 ← lift (normalize_name (dict_get data "p2" (VStr "")));
  cm ← get_match;
  let p1 :=
    if truthy (opt_value (Match.p1 cm)) && Match.locked_winner_as_p1 cm
    then Match.p1 cm else Some p1 in
  if negb (truthy (opt_value p1)) || negb (truthy (VStr p2))
     || bool_decide (p1 = Some p2)
  then mret (jsonify_400 (JError "Invalid player names."))
  else
    ensure_player (opt_value p1);;
    ensure_player (VStr p2);;
    set_match (fun cm =>
      Match.mk true 0 (Match.max_rounds cm) p1 (Some p2) 0 0 [] false);;
    cm ← get_match;
    mret (jsonify (JState (match_summary cm))).

Definition api_game_play_round (data : gmap string value) : M response :=
  cm ← get_match;
  if negb (Match.active cm)
  then mret (jsonify_400 (JError "No active match."))
  else if Match.round cm >=? Match.max_rounds cm
  then mret (jsonify_400 (JError "Match already finished. Start the next match."))
  else
    let p1_move := dict_get data "p1_move" (VStr "") in
    let p2_move := dict_get data "p2_move" (VStr "") in
    outcome ← lift (rps_result p1_move p2_move);
    set_match (fun cm =>
      Match.mk (Match.active cm) (Match.round cm + 1) (Match.max_rounds cm)
        (Match.p1 cm) (Match.p2 cm) (Match.p1_round_wins cm)
        (Match.p2_round_wins cm) (Match.round_history cm)
        (Match.locked_winner_as_p1 cm));;
    cm ← get_match;
    let round_num := Match.round cm in
    let '(p1, p2) := current_players cm in
    ps1 ← ensure_player (opt_value p1);
    ps2 ← ensure_player (opt_value p2);
    round_winner ←
      (if outcome =? 1 then
         set_match (fun cm =>
           Match.mk (Match.active cm) (Match.round cm) (Match.max_rounds cm)
             (Match.p1 cm) (Match.p2 cm) (Match.p1_round_wins cm + 1)
             (Match.p2_round_wins cm) (Match.round_history cm)
             (Match.locked_winner_as_p1 cm));;
         mutate ps1 PlayerStats.incr_score;;
         mutate ps1 PlayerStats.incr_wins;;
         mutate ps2 PlayerStats.incr_losses;;
         mret p1
       else if outcome =? -1 then
         set_match (fun cm =>
           Match.mk (Match.active cm) (Match.round cm) (Match.max_rounds cm)
             (Match.p1 cm) (Match.p2 cm) (Match.p1_round_wins cm)
             (Match.p2_round_wins cm + 1) (Match.round_history cm)
             (Match.locked_winner_as_p1 cm));;
         mutate ps2 PlayerStats.incr_score;;
         mutate ps2 PlayerStats.incr_wins;;
         mutate ps1 PlayerStats.incr_losses;;
         mret p2
       else
         mutate ps1 PlayerStats.incr_ties;;
         mutate ps2 PlayerStats.incr_ties;;
         mret None);
    set_match (fun cm =>
      Match.mk (Match.active cm) (Match.round cm) (Match.max_rounds cm)
        (Match.p1 cm) (Match.p2 cm) (Match.p1_round_wins cm)
        (Match.p2_round_wins cm)
        (Match.round_history cm ++ [Round.mk round_num p1_move p2_move round_winner])
        (Match.locked_winner_as_p1 cm));;
    cm ← get_match;
    (if round_num =? Match.max_rounds cm then
       mutate ps1 PlayerStats.incr_games_played;;
       mutate ps2 PlayerStats.incr_games_played;;
       set_match (fun cm =>
         Match.mk false (Match.round cm) (Match.max_rounds cm)
           (Match.p1 cm) (Match.p2 cm) (Match.p1_round_wins cm)
           (Match.p2_round_wins cm) (Match.round_history cm)
           (Match.locked_winner_as_p1 cm));;
       cm ← get_match;
       let winner := match_winner cm in
       let locked_p1 := if is_None winner then p1 else winner in
       set_match (fun cm =>
         Match.mk (Match.active cm) (Match.round cm) (Match.max_rounds cm)
           locked_p1 None (Match.p1_round_wins cm)
           (Match.p2_round_wins cm) (Match.round_history cm) true)
     else mret tt);;
    cm ← get_match;
    mret (jsonify (JState (match_summary cm))).

Definition api_leaderboard : M response :=
  lb ← get_leaderboard;
  mret (jsonify (JLeaderboard (leaderboard_views lb))).

(** The JSON requests the service accepts. *)
Inductive request : Type :=
  | RegisterPlayer (data : gmap string value)
  | GameStart (data : gmap string value)
  | PlayRound (data : gmap string value)
  | GetLeaderboard.

Definition handle (r : request) : M response :=
  match r with
  | RegisterPlayer data => api_register_player data
  | GameStart data => api_game_start data
  | PlayRound data => api_game_play_round data
  | GetLeaderboard => api_leaderboard
  end.

(** The globals after a request, whether it returned or raised. *)
Definition step (r : request) (w : world) : world := (handle r w).2.

Fixpoint run (rs : list request) (w : world) : world :=
  match rs with
  | [] => w
  | r :: rs' => run rs' (step r w)
  end.

(** * Vocabulary of the properties *)

(** ** Names and moves *)

(** A name in normal form: a fixed point of [normalize_name], not empty. *)
Definition normalized (n : string) : Prop :=
  normalize_name (VStr n) = Ok n /\ n <> "".

(** The move a submitted string stands for: trimmed, then lower-cased. *)
Definition move_of (s : string) : string := PyStr.lower (PyStr.strip s).

(** The cyclic relation in the words of the specification: rock beats
    scissors, paper beats rock, scissors beats paper. *)
Inductive spec_beats : string -> string -> Prop :=
  | rock_beats_scissors : spec_beats "rock" "scissors"
  | paper_beats_rock : spec_beats "paper" "rock"
  | scissors_beats_paper : spec_beats "scissors" "paper".

(** ** The leaderboard ordering *)

(** The sort key of [by_score]. *)
Definition score_key (x : PlayerStats.t) : Z * Z :=
  (PlayerStats.score x, PlayerStats.wins x).

(** The procedure in the words of the specification: sort the players in
    ascending order of (score, wins), stably, then reverse the whole
    sequence. *)
Definition spec_by_score (players : list PlayerStats.t) : list PlayerStats.t :=
  reverse (sort_stable score_key tuple_lt players).

(** ** Requests *)

(** The request that registers the player [n]. *)
Definition register (n : string) : request := RegisterPlayer {[ "name" := VStr n ]}.

(** The request that starts a match between [a] and [b]. *)
Definition start (a b : string) : request :=
  GameStart {[ "p1" := VStr a; "p2" := VStr b ]}.

(** The request that plays a round with the moves [m1] and [m2]. *)
Definition play (m1 m2 : string) : request :=
  PlayRound {[ "p1_move" := VStr m1; "p2_move" := VStr m2 ]}.

(** The two moves the round handler reads from a request. *)
Definition moves_of (data : gmap string value) : value * value :=
  (dict_get data "p1_move" (VStr ""), dict_get data "p2_move" (VStr "")).

(** ** The paths through the handlers *)

(** What [ensure_player] does to the registry for the key [n]. *)
Definition ensure_key (n : string) (lb : odict PlayerStats.t) : odict PlayerStats.t :=
  if od_contains n lb then lb else od_set n (PlayerStats.new n) lb.

(** The exception of [ensure_player]. *)
Definition empty_name : exn := ValueError "Player name cannot be empty.".

(** [CURRENT_MATCH] with the round counter advanced, the only mutation made
    before the players are looked up. *)
Definition round_counted (w : world) (lb : odict PlayerStats.t) : world :=
  let cm := CURRENT_MATCH w in
  World lb
    (Match.mk (Match.active cm) (Match.round cm + 1) (Match.max_rounds cm)
       (Match.p1 cm) (Match.p2 cm) (Match.p1_round_wins cm)
       (Match.p2_round_wins cm) (Match.round_history cm)
       (Match.locked_winner_as_p1 cm)).

(** The globals after a round that went through: [o] is the outcome, [a]
    and [b] are the references [ensure_player] returned for the two
    players. *)
Definition after_round (data : gmap string value) (o : Z) (a b : ref) (w : world) : world :=
  let cm := CURRENT_MATCH w in
  let round_num := Match.round cm + 1 in
  let lb1 := ensure_key b (ensure_key a (LEADERBOARD w)) in
  let lb2 :=
    if o =? 1 then
      od_alter PlayerStats.incr_losses b
        (od_alter PlayerStats.incr_wins a (od_alter PlayerStats.incr_score a lb1))
    else if o =? -1 then
      od_alter PlayerStats.incr_losses a
        (od_alter PlayerStats.incr_wins b (od_alter PlayerStats.incr_score b lb1))
    else od_alter PlayerStats.incr_ties b (od_alter PlayerStats.incr_ties a lb1) in
  let p1w := if o =? 1 then Match.p1_round_wins cm + 1 else Match.p1_round_wins cm in
  let p2w :=
    if o =? 1 then Match.p2_round_wins cm
    else if o =? -1 then Match.p2_round_wins cm + 1 else Match.p2_round_wins cm in
  let round_winner :=
    if o =? 1 then Match.p1 cm else if o =? -1 then Match.p2 cm else None in
  let history :=
    Match.round_history cm
    ++ [Round.mk round_num (dict_get data "p1_move" (VStr ""))
          (dict_get data "p2_move" (VStr "")) round_winner] in
  if round_num =? Match.max_rounds cm then
    let winner :=
      match_winner
        (Match.mk false round_num (Match.max_rounds cm) (Match.p1 cm) (Match.p2 cm)
           p1w p2w history (Match.locked_winner_as_p1 cm)) in
    World
      (od_alter PlayerStats.incr_games_played b
         (od_alter PlayerStats.incr_games_played a lb2))
      (Match.mk false round_num (Match.max_rounds cm)
         (if is_None winner then Match.p1 cm else winner) None p1w p2w history true)
  else
    World lb2
      (Match.mk (Match.active cm) round_num (Match.max_rounds cm) (Match.p1 cm)
         (Match.p2 cm) p1w p2w history (Match.locked_winner_as_p1 cm)).

(** The first player of the match being started: the one carried forward
    from the previous match when there is one, else the caller's. *)
Definition start_p1 (cm : Match.t) (n1 : string) : option string :=
  if truthy (opt_value (Match.p1 cm)) && Match.locked_winner_as_p1 cm
  then Match.p1 cm else Some n1.

(** [CURRENT_MATCH] after the [update] of [api_game_start]. *)
Definition started (cm : Match.t) (p1 : option string) (n2 : string) : Match.t :=
  Match.mk true 0 (Match.max_rounds cm) p1 (Some n2) 0 0 [] false.

(** ** Rejected rounds *)

(** The three ways [api_game_play_round] turns a request down, and what the
    caller of the handler gets in each: a 400 response for the first two, the
    [ValueError] of [rps_result] for the third. *)
Inductive rejection : Type :=
  | NoActiveMatch
  | MatchAlreadyFinished
  | InvalidMove.

(** What the handler hands back for each rejection. *)
Definition rejected_with (rej : rejection) : result response :=
  match rej with
  | NoActiveMatch => Ok (jsonify_400 (JError "No active match."))
  | MatchAlreadyFinished =>
      Ok (jsonify_400 (JError "Match already finished. Start the next match."))
  | InvalidMove => Raise (ValueError "Moves must be rock, paper, or scissors.")
  end.

(** ** The invariant of the globals *)

(** A registry entry whose score is its number of wins. *)
Definition score_is_wins (kv : string * PlayerStats.t) : Prop :=
  PlayerStats.score kv.2 = PlayerStats.wins kv.2.

(** What holds of the globals in every state the service reaches. *)
Record inv (w : world) : Prop := Inv {
  inv_max : Match.max_rounds (CURRENT_MATCH w) = 10;
  inv_len :
    Match.round (CURRENT_MATCH w)
    = Z.of_nat (length (Match.round_history (CURRENT_MATCH w)));
  inv_wins :
    0 <= Match.p1_round_wins (CURRENT_MATCH w)
    /\ 0 <= Match.p2_round_wins (CURRENT_MATCH w)
    /\ Match.p1_round_wins (CURRENT_MATCH w) + Match.p2_round_wins (CURRENT_MATCH w)
       <= Match.round (CURRENT_MATCH w);
  inv_round : Match.round (CURRENT_MATCH w) <= Match.max_rounds (CURRENT_MATCH w);
  inv_active :
    Match.active (CURRENT_MATCH w) = true ->
    Match.round (CURRENT_MATCH w) < Match.max_rounds (CURRENT_MATCH w)
    /\ Match.locked_winner_as_p1 (CURRENT_MATCH w) = false
    /\ exists a b : string,
         Match.p1 (CURRENT_MATCH w) = Some a
         /\ Match.p2 (CURRENT_MATCH w) = Some b
         /\ a <> b
         /\ normalized a
         /\ normalized b
         /\ od_contains a (LEADERBOARD w) = true
         /\ od_contains b (LEADERBOARD w) = true;
  inv_locked :
    Match.locked_winner_as_p1 (CURRENT_MATCH w) = true ->
    exists a : string, Match.p1 (CURRENT_MATCH w) = Some a /\ normalized a;
  inv_scores : Forall score_is_wins (LEADERBOARD w)
}.

(** ** The outcomes of a request *)

(** Everything a handler can do in a state that satisfies the invariant:
    the request, what the handler hands back, and the globals it leaves. *)
Inductive outcome (w : world) : request -> result response -> world -> Prop :=
  | register_raises data :
      normalize_name (dict_get data "name" (VStr "")) = Raise AttributeError ->
      outcome w (RegisterPlayer data) (Raise AttributeError) w
  | register_empty data :
      normalize_name (dict_get data "name" (VStr "")) = Ok "" ->
      outcome w (RegisterPlayer data)
        (Ok (jsonify_400 (JError "Player name cannot be empty."))) w
  | register_ok data n :
      normalize_name (dict_get data "name" (VStr "")) = Ok n ->
      n <> "" ->
      outcome w (RegisterPlayer data)
        (Ok (jsonify (JPlayer
               match od_get n (LEADERBOARD w) with
               | Some ps => ps
               | None => PlayerStats.new n
               end)))
        (World (ensure_key n (LEADERBOARD w)) (CURRENT_MATCH w))
  | start_raises data :
      normalize_name (dict_get data "p1" (VStr "")) = Raise AttributeError
      \/ normalize_name (dict_get data "p2" (VStr "")) = Raise AttributeError ->
      outcome w (GameStart data) (Raise AttributeError) w
  | start_invalid data n1 n2 e1 :
      normalize_name (dict_get data "p1" (VStr "")) = Ok n1 ->
      normalize_name (dict_get data "p2" (VStr "")) = Ok n2 ->
      (if Match.locked_winner_as_p1 (CURRENT_MATCH w)
       then Match.p1 (CURRENT_MATCH w) = Some e1 else e1 = n1) ->
      e1 = "" \/ n2 = "" \/ e1 = n2 ->
      outcome w (GameStart data)
        (Ok (jsonify_400 (JError "Invalid player names."))) w
  | start_ok data n1 n2 e1 :
      normalize_name (dict_get data "p1" (VStr "")) = Ok n1 ->
      normalize_name (dict_get data "p2" (VStr "")) = Ok n2 ->
      (if Match.locked_winner_as_p1 (CURRENT_MATCH w)
       then Match.p1 (CURRENT_MATCH w) = Some e1 else e1 = n1) ->
      normalized e1 ->
      normalized n2 ->
      e1 <> n2 ->
      outcome w (GameStart data)
        (Ok (jsonify (JState (match_summary (started (CURRENT_MATCH w) (Some e1) n2)))))
        (World (ensure_key n2 (ensure_key e1 (LEADERBOARD w)))
           (started (CURRENT_MATCH w) (Some e1) n2))
  | play_inactive data :
      Match.active (CURRENT_MATCH w) = false ->
      outcome w (PlayRound data) (Ok (jsonify_400 (JError "No active match."))) w
  | play_raises data e :
      Match.active (CURRENT_MATCH w) = true ->
      rps_result (moves_of data).1 (moves_of data).2 = Raise e ->
      e = ValueError "Moves must be rock, paper, or scissors." \/ e = AttributeError ->
      outcome w (PlayRound data) (Raise e) w
  | play_ok data o a b :
      Match.active (CURRENT_MATCH w) = true ->
      Match.p1 (CURRENT_MATCH w) = Some a ->
      Match.p2 (CURRENT_MATCH w) = Some b ->
      rps_result (moves_of data).1 (moves_of data).2 = Ok o ->
      o = 0 \/ o = 1 \/ o = -1 ->
      outcome w (PlayRound data)
        (Ok (jsonify (JState (match_summary (CURRENT_MATCH (after_round data o a b w))))))
        (after_round data o a b w)
  | leaderboard_ok :
      outcome w GetLeaderboard
        (Ok (jsonify (JLeaderboard (leaderboard_views (LEADERBOARD w))))) w.

(** ** The registry over time *)

(** The keys of the registry, in insertion order. *)
Definition keys_of (lb : odict PlayerStats.t) : list string := lb.*1.

(** The rounds a record accounts for. *)
Definition rounds_of (ps : PlayerStats.t) : Z :=
  PlayerStats.wins ps + PlayerStats.losses ps + PlayerStats.ties ps.

(** A counter summed over the registry. *)
Definition total (f : PlayerStats.t -> Z) (lb : odict PlayerStats.t) : Z :=
  foldr (fun kv acc => f kv.2 + acc) 0 lb.

(** The record of a player after a round with outcome [o]: [first] tells
    the first player of the match from the second, [last] the round that
    ends the match from the others. *)
Definition played (o : Z) (first last : bool) (ps : PlayerStats.t) : PlayerStats.t :=
  let ps' :=
    if o =? 1 then
      if first then PlayerStats.incr_wins (PlayerStats.incr_score ps)
      else PlayerStats.incr_losses ps
    else if o =? -1 then
      if first then PlayerStats.incr_losses ps
      else PlayerStats.incr_wins (PlayerStats.incr_score ps)
    else PlayerStats.incr_ties ps in
  if last then PlayerStats.incr_games_played ps' else ps'.

(** The round being played is the one that ends the match. *)
Definition last_round (cm : Match.t) : bool :=
  Match.round cm + 1 =? Match.max_rounds cm.

(** [k] is one of the two players of a match in progress. *)
Definition in_play (k : string) (cm : Match.t) : bool :=
  Match.active cm
  && (bool_decide (Match.p1 cm = Some k) || bool_decide (Match.p2 cm = Some k)).

(** The rounds of the history that [p] won ([None]: the tied rounds). *)
Definition rounds_won (p : option string) (history : list Round.t) : Z :=
  Z.of_nat (length (filter (fun r => Round.round_winner r = p) history)).

(** ** What the statistics and the history keep *)

(** A record stored under the key [k], against the match [cm]: it carries
    its key as name, the key is in normal form, no counter is negative, and
    the rounds it accounts for cover its completed matches and, for a
    player of the match in progress, the rounds played so far. *)
Definition record_ok (cm : Match.t) (k : string) (ps : PlayerStats.t) : Prop :=
  PlayerStats.name ps = k
  /\ normalized k
  /\ 0 <= PlayerStats.score ps
  /\ 0 <= PlayerStats.wins ps
  /\ 0 <= PlayerStats.losses ps
  /\ 0 <= PlayerStats.ties ps
  /\ 0 <= PlayerStats.games_played ps
  /\ Match.max_rounds cm * PlayerStats.games_played ps
     + (if in_play k cm then Match.round cm else 0)
     <= rounds_of ps.

(** The match has never been started, is in progress, or is over with its
    winner carried forward. *)
Definition phase (cm : Match.t) : Prop :=
  cm = initial_match
  \/ Match.active cm = true
  \/ (Match.active cm = false
      /\ Match.locked_winner_as_p1 cm = true
      /\ Match.round cm = Match.max_rounds cm
      /\ Match.p2 cm = None).

Record wf (w : world) : Prop := Wf {
  wf_keys : NoDup (keys_of (LEADERBOARD w));
  wf_records :
    forall k ps, od_get k (LEADERBOARD w) = Some ps -> record_ok (CURRENT_MATCH w) k ps;
  wf_totals :
    total PlayerStats.wins (LEADERBOARD w) = total PlayerStats.losses (LEADERBOARD w)
    /\ exists n : Z, total PlayerStats.ties (LEADERBOARD w) = 2 * n;
  wf_phase : phase (CURRENT_MATCH w);
  wf_numbered :
    forall (i : nat) (r : Round.t),
      Match.round_history (CURRENT_MATCH w) !! i = Some r ->
      Round.round r = Z.of_nat i + 1;
  wf_tied :
    rounds_won None (Match.round_history (CURRENT_MATCH w))
    = Match.round (CURRENT_MATCH w) - Match.p1_round_wins (CURRENT_MATCH w)
      - Match.p2_round_wins (CURRENT_MATCH w);
  wf_won :
    Match.active (CURRENT_MATCH w) = true ->
    Match.p1_round_wins (CURRENT_MATCH w)
    = rounds_won (Match.p1 (CURRENT_MATCH w)) (Match.round_history (CURRENT_MATCH w))
    /\ Match.p2_round_wins (CURRENT_MATCH w)
       = rounds_won (Match.p2 (CURRENT_MATCH w)) (Match.round_history (CURRENT_MATCH w))
}.

(** ** Values that are not strings *)

(** A truthy value that is not a [str]: what [(v or "").strip()] raises
    [AttributeError] on. *)
Definition not_str (v : value) : bool :=
  match v with
  | VStr _ => false
  | _ => truthy v
  end.

(** The string [(v or "")] is, for a value that is a [str] or falsy. *)
Definition str_of (v : value) : string :=
  match v with
  | VStr s => s
  | _ => ""
  end.

(** ** The ordering by name *)

(** The sort key of [by_name]. *)
Definition name_key (x : PlayerStats.t) : string :=
  PyStr.lower (PlayerStats.name x).

(** * Properties *)

(** ** Strings *)

Module PyStrFacts.
Import PyStr.

Lemma append_nil_l (s : string) : "" +:+ s = s.
Proof. reflexivity. Qed.

Lemma append_cons (c : ascii) (s1 s2 : string) :
  String c s1 +:+ s2 = String c (s1 +:+ s2).
Proof. reflexivity. Qed.

Lemma append_empty_r (s : string) : s +:+ "" = s.
Proof.
  induction s as [|c s IH]; [reflexivity |].
  now rewrite append_cons, IH.
Qed.

Lemma append_assoc (s1 s2 s3 : string) : (s1 +:+ s2) +:+ s3 = s1 +:+ (s2 +:+ s3).
Proof.
  induction s1 as [|c s1 IH]; [reflexivity |].
  now rewrite !append_cons, IH.
Qed.

Lemma append_eq_empty (s1 s2 : string) : s1 +:+ s2 = "" -> s1 = "" /\ s2 = "".
Proof. destruct s1; [rewrite append_nil_l; auto | rewrite append_cons; discriminate]. Qed.

Lemma all_chars_app (P : ascii -> bool) (s1 s2 : string) :
  all_chars P (s1 +:+ s2) = all_chars P s1 && all_chars P s2.
Proof.
  induction s1 as [|c s1 IH]; [reflexivity |].
  rewrite append_cons. simpl. rewrite IH. now destruct (P c).
Qed.

(** Leading whitespace does not change the words. *)
Lemma split_lstrip (s : string) : split (lstrip s) = split s.
Proof.
  unfold split. induction s as [|c s IH]; simpl; [reflexivity |].
  destruct (isspace c) eqn:Hc; simpl; [exact IH | now rewrite Hc].
Qed.

(** Nor does trailing whitespace. *)
Lemma split_go_rstrip (cur s : string) : split_go cur (rstrip s) = split_go cur s.
Proof.
  revert cur. induction s as [|c s IH]; intros cur; simpl; [reflexivity |].
  destruct (isspace c) eqn:Hc; simpl.
  - case_bool_decide as Hr; simpl.
    + rewrite <- (IH ""), Hr. simpl. now case_bool_decide.
    + rewrite Hc, IH. reflexivity.
  - rewrite Hc. apply IH.
Qed.

Lemma split_strip (s : string) : split (strip s) = split s.
Proof. unfold strip, split. rewrite split_go_rstrip. exact (split_lstrip s). Qed.

(** Every string [split] yields is a word. *)
Lemma split_go_words (cur s : string) :
  all_chars (fun c => negb (isspace c)) cur = true ->
  Forall word (split_go cur s).
Proof.
  revert cur. induction s as [|c s IH]; intros cur Hcur; simpl.
  - case_bool_decide; constructor; [split; assumption | constructor].
  - destruct (isspace c) eqn:Hc.
    + case_bool_decide.
      * apply IH. reflexivity.
      * constructor; [split; assumption | apply IH; reflexivity].
    + apply IH. rewrite all_chars_app, Hcur. simpl. now rewrite Hc.
Qed.

Lemma split_words (s : string) : Forall word (split s).
Proof. apply split_go_words. reflexivity. Qed.

(** Scanning over a word extends the run in progress. *)
Lemma split_go_word (cur w rest : string) :
  all_chars (fun c => negb (isspace c)) w = true ->
  split_go cur (w +:+ rest) = split_go (cur +:+ w) rest.
Proof.
  revert cur. induction w as [|c w IH]; intros cur Hw.
  - now rewrite append_nil_l, append_empty_r.
  - simpl in Hw. apply andb_prop in Hw as [Hc Hw]. apply negb_true_iff in Hc.
    rewrite append_cons. simpl. rewrite Hc, IH by exact Hw.
    now rewrite append_assoc.
Qed.

Lemma split_go_space (cur s : string) :
  split_go cur (String " " s)
  = if bool_decide (cur = "") then split_go "" s else cur :: split_go "" s.
Proof. reflexivity. Qed.

Lemma join_cons2 (sep w w' : string) (ws : list string) :
  join sep (w :: w' :: ws) = w +:+ sep +:+ join sep (w' :: ws).
Proof. reflexivity. Qed.

(** Splitting the words joined by one space gives the words back. *)
Lemma split_join (ws : list string) :
  Forall word ws -> split (join " " ws) = ws.
Proof.
  unfold split. induction 1 as [|w ws [Hne Hw] Hws IH]; [reflexivity |].
  destruct ws as [|w' ws].
  - change (join " " [w]) with w.
    rewrite <- (append_empty_r w) at 1.
    rewrite split_go_word, append_nil_l by exact Hw.
    simpl. now case_bool_decide.
  - rewrite join_cons2, split_go_word, append_nil_l by exact Hw.
    change (" " +:+ join " " (w' :: ws)) with (String " " (join " " (w' :: ws))).
    rewrite split_go_space, IH.
    now case_bool_decide.
Qed.

End PyStrFacts.

(** ** Name normalisation *)

Lemma as_str_or_empty (s : string) : as_str (py_or (VStr s) (VStr "")) = Ok s.
Proof.
  unfold py_or. simpl. case_bool_decide as H; simpl; [now rewrite H | reflexivity].
Qed.

Lemma normalize_name_str (s : string) :
  normalize_name (VStr s) = Ok (PyStr.join " " (PyStr.split s)).
Proof.
  unfold normalize_name. rewrite as_str_or_empty. simpl.
  now rewrite PyStrFacts.split_strip.
Qed.

(** [normalize_name] is idempotent. *)
Lemma normalize_name_idem (v : value) (n : string) :
  normalize_name v = Ok n -> normalize_name (VStr n) = Ok n.
Proof.
  unfold normalize_name at 1.
  destruct (as_str (py_or v (VStr ""))) as [s|e]; simpl; [| discriminate].
  intros [= <-]. rewrite normalize_name_str, PyStrFacts.split_strip.
  rewrite PyStrFacts.split_join; [reflexivity | apply PyStrFacts.split_words].
Qed.

Lemma normalize_name_normalized (v : value) (n : string) :
  normalize_name v = Ok n -> n <> "" -> normalized n.
Proof. intros H Hne. split; [exact (normalize_name_idem v n H) | exact Hne]. Qed.

Example normalize_name_spaces :
  normalize_name (VStr "  Alice    Smith ") = Ok "Alice Smith".
Proof. vm_compute. reflexivity. Qed.

(** ** Round resolution *)

Example rps_rock_scissors : rps_result (VStr "rock") (VStr "scissors") = Ok 1.
Proof. vm_compute. reflexivity. Qed.

Example rps_Rock_paper : rps_result (VStr "Rock ") (VStr "paper") = Ok (-1).
Proof. vm_compute. reflexivity. Qed.

Example rps_lizard :
  rps_result (VStr "lizard") (VStr "rock")
  = Raise (ValueError "Moves must be rock, paper, or scissors.").
Proof. vm_compute. reflexivity. Qed.

Example rps_none : rps_result VNone (VInt 3) = Raise AttributeError.
Proof. vm_compute. reflexivity. Qed.

Lemma rps_result_str (move1 move2 : string) :
  rps_result (VStr move1) (VStr move2)
  = if negb (bool_decide (move_of move1 ∈ MOVES))
       || negb (bool_decide (move_of move2 ∈ MOVES))
    then Raise (ValueError "Moves must be rock, paper, or scissors.")
    else if bool_decide (move_of move1 = move_of move2) then Ok 0
    else
      b ← getitem beats (move_of move1);
      Ok (if bool_decide (b = move_of move2) then 1 else -1).
Proof. unfold rps_result. now rewrite !as_str_or_empty. Qed.

Lemma elem_of_MOVES (m : string) :
  m ∈ MOVES <-> m = "rock" \/ m = "paper" \/ m = "scissors".
Proof. unfold MOVES. rewrite !elem_of_cons, elem_of_nil. tauto. Qed.

(** An invalid move makes [rps_result] raise, whatever the other move. *)
Lemma rps_result_invalid (move1 move2 : string) :
  move_of move1 ∉ MOVES \/ move_of move2 ∉ MOVES ->
  rps_result (VStr move1) (VStr move2)
  = Raise (ValueError "Moves must be rock, paper, or scissors.").
Proof.
  intros H. rewrite rps_result_str.
  destruct H as [H | H]; rewrite (bool_decide_eq_false_2 _ H); simpl;
    [reflexivity | now rewrite orb_true_r].
Qed.

(** C6. For two strings whose trimmed, lower-cased forms are both among
    rock, paper and scissors, [rps_result] returns one of 0 (tie), 1 (the
    first wins) and -1 (the second wins): 0 exactly when the two forms are
    equal, 1 exactly when they differ and the first beats the second in the
    cyclic relation, -1 exactly when they differ and it does not. *)
Theorem rps_result_valid (move1 move2 : string) :
  move_of move1 ∈ MOVES ->
  move_of move2 ∈ MOVES ->
  exists r : Z,
    rps_result (VStr move1) (VStr move2) = Ok r
    /\ (r = 0 \/ r = 1 \/ r = -1)
    /\ (r = 0 <-> move_of move1 = move_of move2)
    /\ (r = 1 <->
          move_of move1 <> move_of move2 /\ spec_beats (move_of move1) (move_of move2))
    /\ (r = -1 <->
          move_of move1 <> move_of move2 /\ ~ spec_beats (move_of move1) (move_of move2)).
Proof.
  intros H1 H2. rewrite rps_result_str.
  apply elem_of_MOVES in H1, H2.
  destruct H1 as [-> | [-> | ->]], H2 as [-> | [-> | ->]];
    eexists; (split; [vm_compute; reflexivity |]);
    (split; [lia |]);
    repeat split; try lia; try discriminate; try constructor;
    try (intros [? ?]; congruence);
    try (intros [_ Hb]; exfalso; apply Hb; constructor);
    try (intros [_ Hb]; inversion Hb);
    try (intros Hb; inversion Hb).
Qed.

Lemma rps_result_valid_witness :
  exists r : Z,
    rps_result (VStr "Rock ") (VStr "paper") = Ok r
    /\ (r = 0 \/ r = 1 \/ r = -1)
    /\ (r = 0 <-> move_of "Rock " = move_of "paper")
    /\ (r = 1 <->
          move_of "Rock " <> move_of "paper" /\ spec_beats (move_of "Rock ") (move_of "paper"))
    /\ (r = -1 <->
          move_of "Rock " <> move_of "paper" /\ ~ spec_beats (move_of "Rock ") (move_of "paper")).
Proof.
  apply (rps_result_valid "Rock " "paper"); apply elem_of_MOVES; vm_compute; auto.
Defined.

(** C9. For two valid moves, swapping the roles mirrors the outcome:
    [rps_result a b] is some [r] among 0, 1, -1 and [rps_result b a] is
    [-r]; so the first wins one way exactly when the second wins the other
    way, and a tie is a tie both ways. *)
Theorem rps_result_mirror (a b : string) :
  move_of a ∈ MOVES ->
  move_of b ∈ MOVES ->
  (exists r : Z,
      rps_result (VStr a) (VStr b) = Ok r /\ rps_result (VStr b) (VStr a) = Ok (- r))
  /\ (rps_result (VStr a) (VStr b) = Ok 1 <-> rps_result (VStr b) (VStr a) = Ok (-1))
  /\ (rps_result (VStr a) (VStr b) = Ok (-1) <-> rps_result (VStr b) (VStr a) = Ok 1)
  /\ (rps_result (VStr a) (VStr b) = Ok 0 <-> rps_result (VStr b) (VStr a) = Ok 0).
Proof.
  intros Ha Hb. rewrite !rps_result_str.
  apply elem_of_MOVES in Ha, Hb.
  destruct Ha as [-> | [-> | ->]], Hb as [-> | [-> | ->]];
    (split; [eexists; split; vm_compute; reflexivity |]);
    vm_compute; repeat split; intros; congruence.
Qed.

Lemma rps_result_mirror_witness :
  (exists r : Z,
      rps_result (VStr "PAPER") (VStr " rock") = Ok r
      /\ rps_result (VStr " rock") (VStr "PAPER") = Ok (- r))
  /\ (rps_result (VStr "PAPER") (VStr " rock") = Ok 1
      <-> rps_result (VStr " rock") (VStr "PAPER") = Ok (-1))
  /\ (rps_result (VStr "PAPER") (VStr " rock") = Ok (-1)
      <-> rps_result (VStr " rock") (VStr "PAPER") = Ok 1)
  /\ (rps_result (VStr "PAPER") (VStr " rock") = Ok 0
      <-> rps_result (VStr " rock") (VStr "PAPER") = Ok 0).
Proof.
  apply (rps_result_mirror "PAPER" " rock"); apply elem_of_MOVES; vm_compute; auto.
Defined.

(** ** Stable sorting *)

Section sorted_facts.
Context {A K : Type} `{!EqDecision K} (key : A -> K) (lt : K -> K -> bool).

(** [lt] is a strict weak order on the keys. *)
Hypothesis lt_asym : forall a b, lt a b = true -> lt b a = false.
Hypothesis lt_cotrans : forall a b c, lt a c = true -> lt a b = true \/ lt b c = true.

Lemma lt_irrefl (a : K) : lt a a = false.
Proof. destruct (lt a a) eqn:H; [| reflexivity]. now rewrite <- H, (lt_asym a a H). Qed.

Lemma insert_stable_perm (x : A) (l : list A) : insert_stable key lt x l ≡ₚ x :: l.
Proof.
  induction l as [|y l IH]; simpl; [reflexivity |].
  destruct (lt (key y) (key x)); [| reflexivity].
  rewrite IH. apply Permutation_swap.
Qed.

Lemma sort_stable_perm (l : list A) : sort_stable key lt l ≡ₚ l.
Proof.
  induction l as [|x l IH]; simpl; [reflexivity |].
  now rewrite insert_stable_perm, IH.
Qed.

Lemma insert_stable_ascending (x : A) (l : list A) :
  ascending key lt l -> ascending key lt (insert_stable key lt x l).
Proof.
  unfold ascending. induction l as [|y l IH]; intros Hl; simpl.
  - repeat constructor.
  - apply StronglySorted_cons in Hl as [Hy Hl].
    destruct (lt (key y) (key x)) eqn:Hyx.
    + apply StronglySorted_cons. split; [| apply IH, Hl].
      rewrite insert_stable_perm. constructor; [apply lt_asym, Hyx | exact Hy].
    + apply StronglySorted_cons. split.
      * constructor; [exact Hyx |].
        eapply Forall_impl; [exact Hy |]. intros z Hzy. simpl in Hzy.
        destruct (lt (key z) (key x)) eqn:Hzx; [| reflexivity].
        destruct (lt_cotrans _ (key y) _ Hzx); congruence.
      * apply StronglySorted_cons. split; assumption.
Qed.

Lemma sort_stable_ascending (l : list A) : ascending key lt (sort_stable key lt l).
Proof.
  induction l as [|x l IH]; simpl; [constructor |].
  apply insert_stable_ascending, IH.
Qed.

(** Insertion puts the new element in front of the elements with its key. *)
Lemma insert_stable_filter (k : K) (x : A) (l : list A) :
  filter (fun y => key y = k) (insert_stable key lt x l)
  = filter (fun y => key y = k) (x :: l).
Proof.
  induction l as [|y l IH]; simpl; [reflexivity |].
  destruct (lt (key y) (key x)) eqn:Hyx; [| reflexivity].
  rewrite (filter_cons _ y), IH, !(filter_cons _ x), !(filter_cons _ y).
  destruct (decide (key x = k)) as [Hx|Hx]; [| reflexivity].
  destruct (decide (key y = k)) as [Hy|Hy]; [| reflexivity].
  rewrite Hx, Hy, lt_irrefl in Hyx. discriminate.
Qed.

(** Stability: the elements sharing a key keep their relative order. *)
Lemma sort_stable_filter (k : K) (l : list A) :
  filter (fun y => key y = k) (sort_stable key lt l) = filter (fun y => key y = k) l.
Proof.
  induction l as [|x l IH]; simpl; [reflexivity |].
  now rewrite insert_stable_filter, !(filter_cons _ x), IH.
Qed.

Lemma ascending_reverse (l : list A) : ascending key lt l -> descending key lt (reverse l).
Proof.
  unfold ascending, descending. induction 1 as [|x l Hl IH Hx].
  - constructor.
  - rewrite reverse_cons. apply StronglySorted_app. split; [| split].
    + intros y z Hy Hz. apply list_elem_of_singleton in Hz as ->.
      rewrite elem_of_reverse in Hy.
      rewrite Forall_forall in Hx. apply Hx, Hy.
    + exact IH.
    + repeat constructor.
Qed.

Lemma py_sorted_reverse_perm (l : list A) : py_sorted key lt true l ≡ₚ l.
Proof. unfold py_sorted. now rewrite reverse_Permutation, sort_stable_perm, reverse_Permutation. Qed.

Lemma py_sorted_reverse_descending (l : list A) : descending key lt (py_sorted key lt true l).
Proof. apply ascending_reverse, sort_stable_ascending. Qed.

Lemma py_sorted_reverse_stable (k : K) (l : list A) :
  filter (fun y => key y = k) (py_sorted key lt true l) = filter (fun y => key y = k) l.
Proof.
  unfold py_sorted.
  now rewrite filter_reverse, sort_stable_filter, filter_reverse, reverse_involutive.
Qed.
(** On a total order of keys, an ascending list is determined by the order
in which each key's elements appear: every stable sort gives the same
list. *)
Lemma stable_ascending_unique (l1 l2 : list A) :
  (forall a b, lt a b = false -> lt b a = false -> a = b) ->
  ascending key lt l1 ->
  ascending key lt l2 ->
  (forall k : K, filter (fun y => key y = k) l1 = filter (fun y => key y = k) l2) ->
  l1 = l2.
Proof.
  intros lt_total. unfold ascending.
  revert l2. induction l1 as [|x l1 IH]; intros l2 H1 H2 Hf.
  - destruct l2 as [|y l2]; [reflexivity |].
    specialize (Hf (key y)). rewrite filter_cons_True in Hf by reflexivity.
    discriminate.
  - destruct l2 as [|y l2].
    { specialize (Hf (key x)). rewrite filter_cons_True in Hf by reflexivity.
      discriminate. }
    apply StronglySorted_cons in H1 as [Hx H1], H2 as [Hy H2].
    rewrite Forall_forall in Hx, Hy.
    assert (Hk : key x = key y).
    { destruct (decide (key x = key y)) as [Hk | Hk]; [exact Hk |].
      apply lt_total.
      - apply Hy.
        assert (Hin : x ∈ filter (fun z => key z = key x) (y :: l2)).
        { rewrite <- Hf, filter_cons_True by reflexivity. left. }
        apply list_elem_of_filter in Hin as [_ Hin].
        apply elem_of_cons in Hin as [-> | Hin]; [contradiction | exact Hin].
      - apply Hx.
        assert (Hin : y ∈ filter (fun z => key z = key y) (x :: l1)).
        { rewrite Hf, filter_cons_True by reflexivity. left. }
        apply list_elem_of_filter in Hin as [_ Hin].
        apply elem_of_cons in Hin as [-> | Hin]; [contradiction | exact Hin]. }
    assert (x = y) as <-.
    { specialize (Hf (key x)).
      rewrite !filter_cons_True in Hf by (reflexivity || now symmetry).
      congruence. }
    f_equal. apply IH; [exact H1 | exact H2 |].
    intros k. specialize (Hf k). rewrite !filter_cons in Hf.
    destruct (decide (key x = k)); congruence.
Qed.
End sorted_facts.

Lemma tuple_lt_asym (a b : Z * Z) : tuple_lt a b = true -> tuple_lt b a = false.
Proof. unfold tuple_lt. destruct a, b; simpl. lia. Qed.

Lemma tuple_lt_cotrans (a b c : Z * Z) :
  tuple_lt a c = true -> tuple_lt a b = true \/ tuple_lt b c = true.
Proof. unfold tuple_lt. destruct a, b, c; simpl. lia. Qed.

Lemma tuple_lt_total (a b : Z * Z) :
  tuple_lt a b = false -> tuple_lt b a = false -> a = b.
Proof.
  unfold tuple_lt. destruct a as [a1 a2], b as [b1 b2]; simpl. intros H1 H2.
  assert (a1 = b1 /\ a2 = b2) as [-> ->] by lia. reflexivity.
Qed.

(** ** The leaderboard ordering *)

(** Two players registered one after the other share the key (0, 0):
    [by_score] lists them in the order of registration, sorting in
    ascending order and reversing would list them the other way round. *)
Lemma by_score_not_ascending_reversed :
  let lb := LEADERBOARD (run [register "Ann"; register "Bea"] initial_world) in
  PlayerStats.name <$> Views.by_score (leaderboard_views lb) = ["Ann"; "Bea"]
  /\ PlayerStats.name <$> spec_by_score (od_values lb) = ["Bea"; "Ann"]
  /\ Views.by_score (leaderboard_views lb) <> spec_by_score (od_values lb).
Proof. vm_compute. repeat split; discriminate. Qed.

(** [by_score] is [sorted] with [reverse=True] on the records of the
    registry. *)
Lemma by_score_eq (lb : odict PlayerStats.t) :
  Views.by_score (leaderboard_views lb)
  = py_sorted score_key tuple_lt true (od_values lb).
Proof.
  unfold leaderboard_views, PlayerStats.to_dict. simpl.
  now rewrite list_fmap_id.
Qed.

(** C2, amended. For every registry, [by_score] lists the players in
    descending order of (score, wins) and keeps the players that share a
    key in their original relative order, the order of the registry: it is
    a permutation of the players, no player is followed by one with a
    larger key, the players with any given key appear as they do in the
    registry, and the list is what reversing, sorting stably in ascending
    order and reversing again gives. *)
Theorem by_score_stable_descending (lb : odict PlayerStats.t) :
  let players := od_values lb in
  let by_score := Views.by_score (leaderboard_views lb) in
  by_score ≡ₚ players
  /\ descending score_key tuple_lt by_score
  /\ (forall k : Z * Z,
        filter (fun x => score_key x = k) by_score
        = filter (fun x => score_key x = k) players)
  /\ by_score = reverse (sort_stable score_key tuple_lt (reverse players)).
Proof.
  intros players by_score.
  assert (Hby : by_score = py_sorted score_key tuple_lt true players)
    by apply by_score_eq.
  rewrite Hby. split; [| split; [| split]].
  - apply py_sorted_reverse_perm.
  - apply py_sorted_reverse_descending;
      [exact tuple_lt_asym | exact tuple_lt_cotrans].
  - intros k. apply py_sorted_reverse_stable. exact tuple_lt_asym.
  - reflexivity.
Qed.

(** The three properties determine the list: any descending arrangement
    that keeps each key's players in registry order is [by_score]. *)
Lemma by_score_unique (lb : odict PlayerStats.t) (l : list PlayerStats.t) :
  descending score_key tuple_lt l ->
  (forall k : Z * Z,
      filter (fun x => score_key x = k) l
      = filter (fun x => score_key x = k) (od_values lb)) ->
  l = Views.by_score (leaderboard_views lb).
Proof.
  intros Hl Hf. rewrite by_score_eq.
  apply (stable_ascending_unique score_key (fun a b => tuple_lt b a)).
  - intros a b Hab Hba. now apply tuple_lt_total.
  - exact Hl.
  - apply py_sorted_reverse_descending;
      [exact tuple_lt_asym | exact tuple_lt_cotrans].
  - intros k. rewrite Hf. symmetry.
    apply py_sorted_reverse_stable. exact tuple_lt_asym.
Qed.

(** ** The registry *)

Section odict_facts.
Context {V : Type}.
Implicit Types (d : odict V) (k : string) (v : V) (f : V -> V).

Lemma od_get_alter_eq f k d : od_get k (od_alter f k d) = f <$> od_get k d.
Proof.
  induction d as [|[k' v'] d IH]; simpl; [reflexivity |].
  case_bool_decide as Hk; simpl; rewrite ?IH;
    repeat case_bool_decide; simplify_eq; auto.
Qed.

Lemma od_get_alter_ne f k k' d : k <> k' -> od_get k' (od_alter f k d) = od_get k' d.
Proof.
  intros Hne. induction d as [|[k0 v0] d IH]; simpl; [reflexivity |].
  case_bool_decide as Hk; simpl; rewrite ?IH;
    repeat case_bool_decide; simplify_eq; auto.
Qed.

Lemma od_get_set_eq k v d : od_get k (od_set k v d) = Some v.
Proof.
  induction d as [|[k' v'] d IH]; simpl; [| case_bool_decide as Hk; simpl];
    rewrite ?IH; repeat case_bool_decide; simplify_eq; auto.
Qed.

Lemma od_get_set_ne k k' v d : k <> k' -> od_get k' (od_set k v d) = od_get k' d.
Proof.
  intros Hne.
  induction d as [|[k0 v0] d IH]; simpl; [| case_bool_decide as Hk; simpl];
    rewrite ?IH; repeat case_bool_decide; simplify_eq; auto.
Qed.

(** A new key is appended. *)
Lemma od_set_fresh k v d : od_get k d = None -> od_set k v d = d ++ [(k, v)].
Proof.
  induction d as [|[k' v'] d IH]; simpl; [reflexivity |].
  case_bool_decide; [discriminate |]. intros Hd. now rewrite IH.
Qed.

Lemma od_contains_alter f k k' d : od_contains k' (od_alter f k d) = od_contains k' d.
Proof.
  unfold od_contains. destruct (decide (k = k')) as [<- | Hne].
  - rewrite od_get_alter_eq. now destruct (od_get k d).
  - now rewrite od_get_alter_ne.
Qed.

Lemma od_contains_set k k' v d :
  od_contains k' (od_set k v d) = bool_decide (k = k') || od_contains k' d.
Proof.
  unfold od_contains. destruct (decide (k = k')) as [<- | Hne].
  - now rewrite od_get_set_eq, bool_decide_eq_true_2.
  - now rewrite od_get_set_ne, bool_decide_eq_false_2.
Qed.

Lemma od_alter_Forall (P : string * V -> Prop) f k d :
  (forall k' v', P (k', v') -> P (k', f v')) ->
  Forall P d -> Forall P (od_alter f k d).
Proof.
  intros Hf. induction 1 as [|[k' v'] d Hx Hd IH]; simpl; [constructor |].
  case_bool_decide; constructor; auto.
Qed.

Lemma od_set_Forall (P : string * V -> Prop) k v d :
  P (k, v) -> Forall P d -> Forall P (od_set k v d).
Proof.
  intros Hv. induction 1 as [|[k' v'] d Hx Hd IH]; simpl.
  - repeat constructor. exact Hv.
  - case_bool_decide; constructor; auto.
Qed.

Lemma od_alter_alter f g k d :
  od_alter g k (od_alter f k d) = od_alter (fun v => g (f v)) k d.
Proof.
  induction d as [|[k' v'] d IH]; simpl; [reflexivity |].
  case_bool_decide as Hk; simpl.
  - now rewrite bool_decide_eq_true_2.
  - now rewrite bool_decide_eq_false_2, IH.
Qed.
End odict_facts.

Lemma ensure_player_eq (name : value) (w : world) :
  ensure_player name w
  = match normalize_name name with
    | Raise e => (Raise e, w)
    | Ok n =>
        if bool_decide (n = "")
        then (Raise (ValueError "Player name cannot be empty."), w)
        else (Ok n, World (ensure_key n (LEADERBOARD w)) (CURRENT_MATCH w))
    end.
Proof.
  unfold ensure_player, mbind, M_bind, lift, ensure_key.
  destruct (normalize_name name) as [n|e]; [| reflexivity].
  simpl. case_bool_decide; simpl; [reflexivity |].
  unfold get_leaderboard, set_leaderboard, mret, M_ret. simpl.
  destruct (od_contains n (LEADERBOARD w)); simpl; [now destruct w | reflexivity].
Qed.

Lemma ensure_key_contains (n k : string) (lb : odict PlayerStats.t) :
  od_contains k (ensure_key n lb) = bool_decide (n = k) || od_contains k lb.
Proof.
  unfold ensure_key. destruct (od_contains n lb) eqn:Hn.
  - case_bool_decide as Hk; [now rewrite <- Hk, Hn | reflexivity].
  - apply od_contains_set.
Qed.

Lemma ensure_key_present (n : string) (lb : odict PlayerStats.t) :
  od_contains n lb = true -> ensure_key n lb = lb.
Proof. unfold ensure_key. now intros ->. Qed.

Lemma ensure_key_get_other (n k : string) (lb : odict PlayerStats.t) :
  n <> k -> od_get k (ensure_key n lb) = od_get k lb.
Proof.
  intros Hne. unfold ensure_key.
  destruct (od_contains n lb); [reflexivity | now apply od_get_set_ne].
Qed.

Lemma ensure_key_get (n : string) (lb : odict PlayerStats.t) :
  od_get n (ensure_key n lb)
  = Some (match od_get n lb with Some ps => ps | None => PlayerStats.new n end).
Proof.
  unfold ensure_key, od_contains.
  destruct (od_get n lb) eqn:Hn; [exact Hn | apply od_get_set_eq].
Qed.

(** C8. [ensure_player] raises the empty-name [ValueError] exactly when
    the normalised name is empty, and then leaves the registry alone.  For
    a name whose normal form [n] is not empty, the call returns the record
    stored under [n]: a record created by this call has the name [n] and
    all five counters at zero, an existing record is returned as it is with
    the registry unchanged; and a second call, with this name or any name
    of the same normal form, returns the same record and changes nothing. *)
Theorem ensure_player_idempotent (name : value) (w : world) :
  ((ensure_player name w).1 = Raise (ValueError "Player name cannot be empty.")
   <-> normalize_name name = Ok "")
  /\ (normalize_name name = Ok "" -> (ensure_player name w).2 = w)
  /\ (forall (n : string) (name' : value),
        normalize_name name = Ok n ->
        n <> "" ->
        normalize_name name' = Ok n ->
        exists (w1 : world) (ps : PlayerStats.t),
          ensure_player name w = (Ok n, w1)
          /\ od_get n (LEADERBOARD w1) = Some ps
          /\ (od_get n (LEADERBOARD w) = None -> ps = PlayerStats.mk n 0 0 0 0 0)
          /\ (forall ps0, od_get n (LEADERBOARD w) = Some ps0 -> ps = ps0 /\ w1 = w)
          /\ ensure_player name' w1 = (Ok n, w1)).
Proof.
  split; [| split].
  - rewrite ensure_player_eq.
    destruct (normalize_name name) as [n|e] eqn:Hn; simpl.
    + case_bool_decide as Hne; simpl; split; intros H; congruence.
    + split; intros H; [| discriminate].
      injection H as He. subst e. exfalso. revert Hn. unfold normalize_name.
      destruct (as_str _) as [s|e'] eqn:Hs; simpl; [discriminate |].
      intros [= He]. subst e'. revert Hs. unfold as_str. destruct (py_or _ _); discriminate.
  - intros Hn. rewrite ensure_player_eq, Hn. reflexivity.
  - intros n name' Hn Hne Hn'.
    rewrite !ensure_player_eq, Hn, bool_decide_eq_false_2 by exact Hne.
    eexists _, _. split; [reflexivity |]. simpl.
    split; [apply ensure_key_get |].
    split; [now intros -> |].
    split.
    + intros ps0 Hps0. rewrite Hps0. split; [reflexivity |].
      rewrite ensure_key_present; [now destruct w |].
      unfold od_contains. now rewrite Hps0.
    + rewrite ensure_player_eq, Hn', bool_decide_eq_false_2 by exact Hne. simpl.
      rewrite (ensure_key_present n (ensure_key n _)); [reflexivity |].
      rewrite ensure_key_contains. now rewrite bool_decide_eq_true_2.
Qed.

Lemma ensure_player_idempotent_witness :
  exists (w1 : world) (ps : PlayerStats.t),
    ensure_player (VStr " Ann  Lee ") initial_world = (Ok "Ann Lee", w1)
    /\ od_get "Ann Lee" (LEADERBOARD w1) = Some ps
    /\ (od_get "Ann Lee" (LEADERBOARD initial_world) = None
        -> ps = PlayerStats.mk "Ann Lee" 0 0 0 0 0)
    /\ (forall ps0, od_get "Ann Lee" (LEADERBOARD initial_world) = Some ps0
        -> ps = ps0 /\ w1 = initial_world)
    /\ ensure_player (VStr "Ann Lee") w1 = (Ok "Ann Lee", w1).
Proof.
  apply (ensure_player_idempotent (VStr " Ann  Lee ") initial_world);
    [vm_compute; reflexivity | discriminate | vm_compute; reflexivity].
Defined.

(** ** One round *)

(** Every path through [api_game_play_round]. *)
Lemma api_game_play_round_eq (data : gmap string value) (w : world) :
  api_game_play_round data w
  = let cm := CURRENT_MATCH w in
    if negb (Match.active cm)
    then (Ok (jsonify_400 (JError "No active match.")), w)
    else if Match.round cm >=? Match.max_rounds cm
    then (Ok (jsonify_400 (JError "Match already finished. Start the next match.")), w)
    else
      match rps_result (dict_get data "p1_move" (VStr "")) (dict_get data "p2_move" (VStr "")) with
      | Raise e => (Raise e, w)
      | Ok o =>
          match normalize_name (opt_value (Match.p1 cm)) with
          | Raise e => (Raise e, round_counted w (LEADERBOARD w))
          | Ok a =>
              if bool_decide (a = "")
              then (Raise empty_name, round_counted w (LEADERBOARD w))
              else
                match normalize_name (opt_value (Match.p2 cm)) with
                | Raise e => (Raise e, round_counted w (ensure_key a (LEADERBOARD w)))
                | Ok b =>
                    if bool_decide (b = "")
                    then (Raise empty_name, round_counted w (ensure_key a (LEADERBOARD w)))
                    else
                      let w' := after_round data o a b w in
                      (Ok (jsonify (JState (match_summary (CURRENT_MATCH w')))), w')
                end
          end
      end.
Proof.
  unfold api_game_play_round, after_round, round_counted, empty_name.
  unfold mbind, M_bind, get_match, mret, M_ret, lift, set_match, mutate, set_leaderboard.
  destruct w as [lb [act rnd mx p1 p2 w1 w2 hist lk]]. simpl.
  destruct act; simpl; [| reflexivity].
  destruct (rnd >=? mx); simpl; [reflexivity |].
  destruct (rps_result _ _) as [o|e]; simpl; [| reflexivity].
  rewrite ensure_player_eq. simpl.
  destruct (normalize_name (opt_value p1)) as [a|e]; simpl; [| reflexivity].
  case_bool_decide; simpl; [reflexivity |].
  rewrite ensure_player_eq. simpl.
  destruct (normalize_name (opt_value p2)) as [b|e]; simpl; [| reflexivity].
  case_bool_decide; simpl; [reflexivity |].
  destruct (o =? 1); [| destruct (o =? -1)]; simpl;
    destruct (rnd + 1 =? mx); simpl; reflexivity.
Qed.

(** ** Starting a match, registering a player *)

Lemma normalize_name_raise (v : value) (e : exn) :
  normalize_name v = Raise e -> e = AttributeError.
Proof.
  unfold normalize_name, as_str.
  destruct (py_or v (VStr "")); simpl; congruence.
Qed.

(** Every path through [api_game_start]. *)
Lemma api_game_start_eq (data : gmap string value) (w : world) :
  api_game_start data w
  = match normalize_name (dict_get data "p1" (VStr "")) with
    | Raise e => (Raise e, w)
    | Ok n1 =>
        match normalize_name (dict_get data "p2" (VStr "")) with
        | Raise e => (Raise e, w)
        | Ok n2 =>
            let cm := CURRENT_MATCH w in
            let p1 := start_p1 cm n1 in
            if negb (truthy (opt_value p1)) || negb (truthy (VStr n2))
               || bool_decide (p1 = Some n2)
            then (Ok (jsonify_400 (JError "Invalid player names.")), w)
            else
              match normalize_name (opt_value p1) with
              | Raise e => (Raise e, w)
              | Ok a =>
                  if bool_decide (a = "") then (Raise empty_name, w)
                  else
                    match normalize_name (VStr n2) with
                    | Raise e => (Raise e, World (ensure_key a (LEADERBOARD w)) cm)
                    | Ok b =>
                        if bool_decide (b = "")
                        then (Raise empty_name, World (ensure_key a (LEADERBOARD w)) cm)
                        else
                          (Ok (jsonify (JState (match_summary (started cm p1 n2)))),
                           World (ensure_key b (ensure_key a (LEADERBOARD w)))
                             (started cm p1 n2))
                    end
              end
        end
    end.
Proof.
  unfold api_game_start, start_p1, started, empty_name.
  unfold mbind, M_bind, get_match, mret, M_ret, lift, set_match.
  destruct w as [lb cm]. simpl.
  destruct (normalize_name (dict_get data "p1" (VStr ""))) as [n1|e]; simpl; [| reflexivity].
  destruct (normalize_name (dict_get data "p2" (VStr ""))) as [n2|e]; simpl; [| reflexivity].
  match goal with |- (if ?c then _ else _) _ = _ => destruct c end;
    [reflexivity |].
  rewrite ensure_player_eq. simpl.
  match goal with |- context [normalize_name (opt_value ?p)] =>
    destruct (normalize_name (opt_value p)) as [a|e] end; simpl; [| reflexivity].
  case_bool_decide; simpl; [reflexivity |].
  rewrite ensure_player_eq. simpl.
  destruct (normalize_name (VStr n2)) as [b|e]; simpl; [| reflexivity].
  case_bool_decide; simpl; reflexivity.
Qed.

(** Every path through [api_register_player]. *)
Lemma api_register_player_eq (data : gmap string value) (w : world) :
  api_register_player data w
  = match normalize_name (dict_get data "name" (VStr "")) with
    | Raise e => (Raise e, w)
    | Ok n =>
        if bool_decide (n = "")
        then (Ok (jsonify_400 (JError "Player name cannot be empty.")), w)
        else
          (Ok (jsonify (JPlayer
                 match od_get n (LEADERBOARD w) with
                 | Some ps => ps
                 | None => PlayerStats.new n
                 end)),
           World (ensure_key n (LEADERBOARD w)) (CURRENT_MATCH w))
    end.
Proof.
  unfold api_register_player, try_except_ValueError, deref.
  unfold mbind, M_bind, get_leaderboard, mret, M_ret.
  rewrite ensure_player_eq.
  destruct (normalize_name _) as [n|e] eqn:Hn; simpl.
  - case_bool_decide; simpl; [reflexivity |].
    now rewrite ensure_key_get.
  - now rewrite (normalize_name_raise _ _ Hn).
Qed.

(** ** The invariant of the globals *)

Lemma inv_initial : inv initial_world.
Proof.
  constructor; simpl; try lia; try discriminate. constructor.
Qed.

Lemma ensure_key_scores (n : string) (lb : odict PlayerStats.t) :
  Forall score_is_wins lb -> Forall score_is_wins (ensure_key n lb).
Proof.
  intros H. unfold ensure_key. destruct (od_contains n lb); [exact H |].
  apply od_set_Forall; [reflexivity | exact H].
Qed.

(** Growing the registry does not disturb the match. *)
Lemma inv_ensure_key (n : string) (w : world) :
  inv w -> inv (World (ensure_key n (LEADERBOARD w)) (CURRENT_MATCH w)).
Proof.
  intros [Hmax Hlen Hwins Hround Hact Hlock Hsc].
  constructor; simpl; try assumption.
  - intros H. destruct (Hact H) as (Hlt & Hl & a & b & Ha & Hb & Hab & Hna & Hnb & Hca & Hcb).
    split; [exact Hlt |]. split; [exact Hl |].
    exists a, b. rewrite !ensure_key_contains, Hca, Hcb, !orb_true_r. auto 10.
  - apply ensure_key_scores, Hsc.
Qed.

Lemma normalized_truthy (n : string) : normalized n -> truthy (VStr n) = true.
Proof. intros [_ Hne]. simpl. now rewrite bool_decide_eq_false_2. Qed.

(** A round played on an active match of a state that satisfies the
    invariant goes through once the moves are valid. *)
Lemma api_game_play_round_active (data : gmap string value) (w : world) (a b : string) (o : Z) :
  inv w ->
  Match.active (CURRENT_MATCH w) = true ->
  Match.p1 (CURRENT_MATCH w) = Some a ->
  Match.p2 (CURRENT_MATCH w) = Some b ->
  rps_result (dict_get data "p1_move" (VStr "")) (dict_get data "p2_move" (VStr "")) = Ok o ->
  api_game_play_round data w
  = (Ok (jsonify (JState (match_summary (CURRENT_MATCH (after_round data o a b w))))),
     after_round data o a b w).
Proof.
  intros Hinv Hactive Hp1 Hp2 Hrps.
  destruct (inv_active w Hinv Hactive)
    as (Hlt & _ & a' & b' & Ha & Hb & _ & [Hna Hnea] & [Hnb Hneb] & _).
  assert (a' = a) as -> by congruence. assert (b' = b) as -> by congruence.
  rewrite api_game_play_round_eq. simpl.
  rewrite Hactive, Hrps, Hp1, Hp2. simpl.
  replace (Match.round (CURRENT_MATCH w) >=? Match.max_rounds (CURRENT_MATCH w))
    with false by lia.
  rewrite Hna, Hnb, !bool_decide_eq_false_2 by assumption.
  reflexivity.
Qed.

Lemma incr_pair_scores (k : string) (lb : odict PlayerStats.t) :
  Forall score_is_wins lb ->
  Forall score_is_wins
    (od_alter PlayerStats.incr_wins k (od_alter PlayerStats.incr_score k lb)).
Proof.
  intros H. rewrite od_alter_alter. apply od_alter_Forall; [| exact H].
  intros k' v'. unfold score_is_wins. simpl. lia.
Qed.

Lemma after_round_inv (data : gmap string value) (w : world) (a b : string) (o : Z) :
  inv w ->
  Match.active (CURRENT_MATCH w) = true ->
  Match.p1 (CURRENT_MATCH w) = Some a ->
  Match.p2 (CURRENT_MATCH w) = Some b ->
  inv (after_round data o a b w).
Proof.
  intros Hinv Hactive Hp1 Hp2.
  destruct (inv_active w Hinv Hactive)
    as (Hlt & Hlk & a' & b' & Ha & Hb & Hab & Hna & Hnb & Hca & Hcb).
  assert (a' = a) as -> by congruence. assert (b' = b) as -> by congruence.
  destruct Hinv as [Hmax Hlen Hwins Hround _ _ Hsc].
  assert (Hsc2 : forall lb2,
    lb2 = (if o =? 1 then
             od_alter PlayerStats.incr_losses b
               (od_alter PlayerStats.incr_wins a
                  (od_alter PlayerStats.incr_score a (LEADERBOARD w)))
           else if o =? -1 then
             od_alter PlayerStats.incr_losses a
               (od_alter PlayerStats.incr_wins b
                  (od_alter PlayerStats.incr_score b (LEADERBOARD w)))
           else od_alter PlayerStats.incr_ties b
                  (od_alter PlayerStats.incr_ties a (LEADERBOARD w))) ->
    Forall score_is_wins lb2 /\ od_contains a lb2 = true /\ od_contains b lb2 = true).
  { intros lb2 ->.
    destruct (o =? 1); [| destruct (o =? -1)];
      rewrite !od_contains_alter; (split; [| split; assumption]);
      repeat (apply od_alter_Forall; [intros k' v' Hk'; exact Hk' |]);
      auto using incr_pair_scores. }
  unfold after_round.
  rewrite (ensure_key_present a), (ensure_key_present b) by assumption.
  destruct (Hsc2 _ eq_refl) as (Hf & Hc1 & Hc2).
  destruct (Match.round (CURRENT_MATCH w) + 1 =? Match.max_rounds (CURRENT_MATCH w)) eqn:Hlast.
  - constructor; simpl; try discriminate.
    + exact Hmax.
    + rewrite length_app. simpl. lia.
    + destruct (o =? 1); [| destruct (o =? -1)]; lia.
    + lia.
    + intros _. unfold match_winner. simpl.
      replace (Match.round (CURRENT_MATCH w) + 1 <? Match.max_rounds (CURRENT_MATCH w))
        with false by lia.
      rewrite Hp1, Hp2.
      repeat match goal with |- context [if ?c >? ?d then _ else _] =>
        destruct (c >? d) end; simpl; eauto.
    + repeat (apply od_alter_Forall; [intros k' v' Hk'; exact Hk' |]). exact Hf.
  - constructor; simpl.
    + exact Hmax.
    + rewrite length_app. simpl. lia.
    + destruct (o =? 1); [| destruct (o =? -1)]; lia.
    + lia.
    + intros _. split; [lia |]. split; [exact Hlk |].
      exists a, b. auto 10.
    + rewrite Hlk. discriminate.
    + exact Hf.
Qed.

(** [api_game_start] in a state that satisfies the invariant, for a request
    whose two names normalise to [n1] and [n2]: [e1] is the first player
    after the carry-forward substitution. *)
Lemma api_game_start_inv (data : gmap string value) (w : world) (n1 n2 : string) :
  inv w ->
  normalize_name (dict_get data "p1" (VStr "")) = Ok n1 ->
  normalize_name (dict_get data "p2" (VStr "")) = Ok n2 ->
  exists e1 : string,
    (if Match.locked_winner_as_p1 (CURRENT_MATCH w)
     then Match.p1 (CURRENT_MATCH w) = Some e1 else e1 = n1)
    /\ api_game_start data w
       = if bool_decide (e1 = "") || bool_decide (n2 = "") || bool_decide (e1 = n2)
         then (Ok (jsonify_400 (JError "Invalid player names.")), w)
         else
           (Ok (jsonify (JState (match_summary (started (CURRENT_MATCH w) (Some e1) n2)))),
            World (ensure_key n2 (ensure_key e1 (LEADERBOARD w)))
              (started (CURRENT_MATCH w) (Some e1) n2)).
Proof.
  intros Hinv Hn1 Hn2.
  assert (He1 : exists e1 : string,
    (if Match.locked_winner_as_p1 (CURRENT_MATCH w)
     then Match.p1 (CURRENT_MATCH w) = Some e1 else e1 = n1)
    /\ start_p1 (CURRENT_MATCH w) n1 = Some e1
    /\ normalize_name (VStr e1) = Ok e1).
  { unfold start_p1.
    destruct (Match.locked_winner_as_p1 (CURRENT_MATCH w)) eqn:Hlk.
    - destruct (inv_locked w Hinv Hlk) as (c & Hc & Hnc).
      exists c. rewrite Hc. simpl opt_value. rewrite (normalized_truthy c Hnc).
      split; [reflexivity |]. split; [reflexivity | apply Hnc].
    - exists n1. rewrite andb_false_r.
      split; [reflexivity |]. split; [reflexivity |].
      exact (normalize_name_idem _ _ Hn1). }
  destruct He1 as (e1 & Hsub & Hstart & Hne1).
  exists e1. split; [exact Hsub |].
  rewrite api_game_start_eq, Hn1, Hn2. simpl. rewrite Hstart. simpl.
  rewrite negb_involutive.
  replace (bool_decide (Some e1 = Some n2)) with (bool_decide (e1 = n2))
    by (apply bool_decide_ext; split; congruence).
  destruct (bool_decide (e1 = "")) eqn:H1; simpl; [reflexivity |].
  destruct (bool_decide (n2 = "")) eqn:H2; simpl; [reflexivity |].
  destruct (bool_decide (e1 = n2)) eqn:H3; simpl; [reflexivity |].
  rewrite Hne1, H1, (normalize_name_idem _ _ Hn2), H2. reflexivity.
Qed.

Lemma started_inv (w : world) (e1 n2 : string) :
  inv w -> normalized e1 -> normalized n2 -> e1 <> n2 ->
  inv (World (ensure_key n2 (ensure_key e1 (LEADERBOARD w)))
         (started (CURRENT_MATCH w) (Some e1) n2)).
Proof.
  intros Hinv He1 Hn2 Hne.
  constructor; simpl; try lia; try discriminate.
  - apply Hinv.
  - rewrite (inv_max w Hinv). lia.
  - intros _. rewrite (inv_max w Hinv). split; [lia |]. split; [reflexivity |].
    exists e1, n2. rewrite !ensure_key_contains.
    rewrite (bool_decide_eq_true_2 (e1 = e1)), (bool_decide_eq_true_2 (n2 = n2))
      by reflexivity.
    simpl. rewrite orb_true_r. auto 10.
  - apply ensure_key_scores, ensure_key_scores, Hinv.
Qed.

(** Every request keeps the invariant, whether it returns or raises. *)
Lemma step_inv (r : request) (w : world) : inv w -> inv (step r w).
Proof.
  intros Hinv. unfold step. destruct r as [data | data | data |]; simpl.
  - rewrite api_register_player_eq.
    destruct (normalize_name _) as [n|e]; [| exact Hinv].
    case_bool_decide; [exact Hinv |]. simpl. apply inv_ensure_key, Hinv.
  - destruct (normalize_name (dict_get data "p1" (VStr ""))) as [n1|e] eqn:Hn1.
    2: { rewrite api_game_start_eq, Hn1. exact Hinv. }
    destruct (normalize_name (dict_get data "p2" (VStr ""))) as [n2|e] eqn:Hn2.
    2: { rewrite api_game_start_eq, Hn1, Hn2. exact Hinv. }
    destruct (api_game_start_inv data w n1 n2 Hinv Hn1 Hn2) as (e1 & Hsub & ->).
    destruct (bool_decide (e1 = "")) eqn:H1; simpl; [exact Hinv |].
    destruct (bool_decide (n2 = "")) eqn:H2; simpl; [exact Hinv |].
    destruct (bool_decide (e1 = n2)) eqn:H3; simpl; [exact Hinv |].
    apply bool_decide_eq_false in H1, H2, H3.
    apply started_inv; try assumption.
    + destruct (Match.locked_winner_as_p1 (CURRENT_MATCH w)) eqn:Hlk.
      * destruct (inv_locked w Hinv Hlk) as (c & Hc & Hnc). congruence.
      * subst e1. exact (normalize_name_normalized _ _ Hn1 H1).
    + exact (normalize_name_normalized _ _ Hn2 H2).
  - destruct (Match.active (CURRENT_MATCH w)) eqn:Hactive.
    2: { rewrite api_game_play_round_eq. simpl. rewrite Hactive. exact Hinv. }
    destruct (inv_active w Hinv Hactive) as (Hlt & _ & a & b & Ha & Hb & _).
    destruct (rps_result (dict_get data "p1_move" (VStr ""))
                (dict_get data "p2_move" (VStr ""))) as [o|e] eqn:Hrps.
    + rewrite (api_game_play_round_active data w a b o) by assumption.
      simpl. now apply after_round_inv.
    + rewrite api_game_play_round_eq. simpl. rewrite Hactive, Hrps. simpl.
      now destruct (_ >=? _).
  - exact Hinv.
Qed.

Lemma run_inv (rs : list request) (w : world) : inv w -> inv (run rs w).
Proof.
  revert w. induction rs as [|r rs IH]; intros w Hinv; simpl; [exact Hinv |].
  apply IH, step_inv, Hinv.
Qed.

(** Every state the service can reach satisfies the invariant. *)
Lemma reachable_inv (rs : list request) : inv (run rs initial_world).
Proof. apply run_inv, inv_initial. Qed.

(** ** Rejected rounds *)

(** An exception of [rps_result] leaves [api_game_play_round] as it is: the
    handler has no [try]. *)
Lemma api_game_play_round_raise (data : gmap string value) (w : world) (e : exn) :
  Match.active (CURRENT_MATCH w) = true ->
  Match.round (CURRENT_MATCH w) < Match.max_rounds (CURRENT_MATCH w) ->
  rps_result (moves_of data).1 (moves_of data).2 = Raise e ->
  api_game_play_round data w = (Raise e, w).
Proof.
  intros Hactive Hlt Hrps. rewrite api_game_play_round_eq. simpl in *.
  rewrite Hactive, Hrps. simpl.
  now replace (Match.round (CURRENT_MATCH w) >=? Match.max_rounds (CURRENT_MATCH w))
    with false by lia.
Qed.

(** C5. A [api_game_play_round] call that ends in one of the three
    rejections leaves the globals exactly as they were: the whole match
    state (round, history, round wins, active flag, players) and every
    record of the registry.  The rejections do occur: with no active match,
    with an active match whose round counter has reached [max_rounds], and
    with an active unfinished match when [rps_result] raises. *)
Theorem play_round_rejected_unchanged (data : gmap string value) (w : world) :
  (forall rej : rejection,
      (api_game_play_round data w).1 = rejected_with rej ->
      (api_game_play_round data w).2 = w)
  /\ (Match.active (CURRENT_MATCH w) = false ->
      api_game_play_round data w = (rejected_with NoActiveMatch, w))
  /\ (Match.active (CURRENT_MATCH w) = true ->
      Match.max_rounds (CURRENT_MATCH w) <= Match.round (CURRENT_MATCH w) ->
      api_game_play_round data w = (rejected_with MatchAlreadyFinished, w))
  /\ (Match.active (CURRENT_MATCH w) = true ->
      Match.round (CURRENT_MATCH w) < Match.max_rounds (CURRENT_MATCH w) ->
      rps_result (moves_of data).1 (moves_of data).2
      = Raise (ValueError "Moves must be rock, paper, or scissors.") ->
      api_game_play_round data w = (rejected_with InvalidMove, w)).
Proof.
  split; [| split; [| split]].
  - intros rej. rewrite api_game_play_round_eq. simpl.
    destruct (Match.active (CURRENT_MATCH w)); simpl; [| reflexivity].
    destruct (_ >=? _); simpl; [reflexivity |].
    destruct (rps_result _ _) as [o|e]; simpl; [| reflexivity].
    destruct (normalize_name (opt_value (Match.p1 _))) as [a|e] eqn:Ha; simpl.
    2: { rewrite (normalize_name_raise _ _ Ha). destruct rej; discriminate. }
    case_bool_decide; simpl; [destruct rej; discriminate |].
    destruct (normalize_name (opt_value (Match.p2 _))) as [b|e] eqn:Hb; simpl.
    2: { rewrite (normalize_name_raise _ _ Hb). destruct rej; discriminate. }
    case_bool_decide; simpl; destruct rej; discriminate.
  - intros Hactive. rewrite api_game_play_round_eq. simpl. now rewrite Hactive.
  - intros Hactive Hge. rewrite api_game_play_round_eq. simpl. rewrite Hactive. simpl.
    now replace (Match.round (CURRENT_MATCH w) >=? Match.max_rounds (CURRENT_MATCH w))
      with true by lia.
  - intros Hactive Hlt Hrps. now apply api_game_play_round_raise.
Qed.

Lemma play_round_rejected_unchanged_witness :
  let w := run [start "Ann" "Bea"; play "rock" "paper"] initial_world in
  let data : gmap string value := {[ "p1_move" := VStr "rock"; "p2_move" := VStr "spock" ]} in
  (api_game_play_round data w).2 = w
  /\ api_game_play_round data w = (rejected_with InvalidMove, w)
  /\ api_game_play_round data initial_world = (rejected_with NoActiveMatch, initial_world).
Proof.
  split; [| split].
  - apply (play_round_rejected_unchanged
             {[ "p1_move" := VStr "rock"; "p2_move" := VStr "spock" ]}
             (run [start "Ann" "Bea"; play "rock" "paper"] initial_world)) with InvalidMove.
    vm_compute. reflexivity.
  - apply (play_round_rejected_unchanged
             {[ "p1_move" := VStr "rock"; "p2_move" := VStr "spock" ]}
             (run [start "Ann" "Bea"; play "rock" "paper"] initial_world));
      vm_compute; reflexivity.
  - apply (play_round_rejected_unchanged
             {[ "p1_move" := VStr "rock"; "p2_move" := VStr "spock" ]} initial_world).
    reflexivity.
Defined.

(** ** An invalid move *)

(** On an active, unfinished match a round with a move outside rock, paper
    and scissors ends in the [ValueError] of [rps_result], for every state
    and every pair of submitted strings. *)
Lemma api_game_play_round_invalid_move
    (data : gmap string value) (w : world) (move1 move2 : string) :
  Match.active (CURRENT_MATCH w) = true ->
  Match.round (CURRENT_MATCH w) < Match.max_rounds (CURRENT_MATCH w) ->
  moves_of data = (VStr move1, VStr move2) ->
  move_of move1 ∉ MOVES \/ move_of move2 ∉ MOVES ->
  api_game_play_round data w
  = (Raise (ValueError "Moves must be rock, paper, or scissors."), w).
Proof.
  intros Hactive Hlt Hdata Hbad.
  apply api_game_play_round_raise; [exact Hactive | exact Hlt |].
  rewrite Hdata. simpl. now apply rps_result_invalid.
Qed.

(** C1. On the active match that [start "Alice" "Bob"] sets up, the round
    submitted with the moves lizard and rock makes [api_game_play_round]
    raise the [ValueError] of [rps_result]: the handler returns no response,
    so none with [ok] false and the message.  The registration handler, in
    contrast, catches the [ValueError] of [ensure_player] and answers with
    [ok] false and its message. *)
Theorem play_round_invalid_move_unhandled :
  let w := run [start "Alice" "Bob"] initial_world in
  let data : gmap string value := {[ "p1_move" := VStr "lizard"; "p2_move" := VStr "rock" ]} in
  Match.active (CURRENT_MATCH w) = true
  /\ Match.round (CURRENT_MATCH w) < Match.max_rounds (CURRENT_MATCH w)
  /\ (move_of "lizard" ∉ MOVES)
  /\ api_game_play_round data w
     = (Raise (ValueError "Moves must be rock, paper, or scissors."), w)
  /\ (forall resp : response, (api_game_play_round data w).1 <> Ok resp)
  /\ (api_register_player {[ "name" := VStr "  " ]} w).1
     = Ok (jsonify_400 (JError "Player name cannot be empty.")).
Proof.
  intros w data.
  assert (Hrun : api_game_play_round data w
                 = (Raise (ValueError "Moves must be rock, paper, or scissors."), w)).
  { apply (api_game_play_round_invalid_move data w "lizard" "rock");
      [reflexivity | reflexivity | reflexivity |].
    left. rewrite elem_of_MOVES. vm_compute. intros [H | [H | H]]; discriminate. }
  split; [reflexivity |]. split; [reflexivity |].
  split; [rewrite elem_of_MOVES; vm_compute; intros [H | [H | H]]; discriminate |].
  split; [exact Hrun |].
  split; [intros resp; rewrite Hrun; discriminate |].
  vm_compute. reflexivity.
Qed.

(** ** The last round of a match *)

Local Ltac od_get_simpl :=
  repeat (rewrite od_get_alter_eq || rewrite od_get_alter_ne by congruence).

(** C3. In a reachable state with an active match that is one round short
    of [max_rounds], a round with valid moves is recorded and finalises the
    match in the same call: [games_played] of both players goes up by
    exactly 1, [active] becomes false, the round counter is [max_rounds],
    which is 10, and [round_history] has 10 entries, [p2] is [None],
    [locked_winner_as_p1] is true, and [p1] is the player with strictly more
    round wins, or the first player of the match when the round wins are
    equal. *)
Theorem last_round_finalizes (rs : list request) (data : gmap string value) (o : Z) :
  let w := run rs initial_world in
  Match.active (CURRENT_MATCH w) = true ->
  Match.round (CURRENT_MATCH w) + 1 = Match.max_rounds (CURRENT_MATCH w) ->
  rps_result (moves_of data).1 (moves_of data).2 = Ok o ->
  exists (a b : string) (psa psb psa' psb' : PlayerStats.t) (w' : world),
    Match.p1 (CURRENT_MATCH w) = Some a
    /\ Match.p2 (CURRENT_MATCH w) = Some b
    /\ od_get a (LEADERBOARD w) = Some psa
    /\ od_get b (LEADERBOARD w) = Some psb
    /\ api_game_play_round data w
       = (Ok (jsonify (JState (match_summary (CURRENT_MATCH w')))), w')
    /\ od_get a (LEADERBOARD w') = Some psa'
    /\ od_get b (LEADERBOARD w') = Some psb'
    /\ PlayerStats.games_played psa' = PlayerStats.games_played psa + 1
    /\ PlayerStats.games_played psb' = PlayerStats.games_played psb + 1
    /\ Match.active (CURRENT_MATCH w') = false
    /\ Match.round (CURRENT_MATCH w') = Match.max_rounds (CURRENT_MATCH w')
    /\ Match.max_rounds (CURRENT_MATCH w') = 10
    /\ length (Match.round_history (CURRENT_MATCH w')) = 10%nat
    /\ Match.p2 (CURRENT_MATCH w') = None
    /\ Match.locked_winner_as_p1 (CURRENT_MATCH w') = true
    /\ Match.p1 (CURRENT_MATCH w')
       = Some (if Match.p1_round_wins (CURRENT_MATCH w')
                  >? Match.p2_round_wins (CURRENT_MATCH w') then a
               else if Match.p2_round_wins (CURRENT_MATCH w')
                       >? Match.p1_round_wins (CURRENT_MATCH w') then b
               else a).
Proof.
  intros w Hactive Hlast Hrps.
  pose proof (reachable_inv rs) as Hinv. fold w in Hinv.
  destruct (inv_active w Hinv Hactive)
    as (Hlt & Hlk & a & b & Ha & Hb & Hab & Hna & Hnb & Hca & Hcb).
  destruct (od_get a (LEADERBOARD w)) as [psa|] eqn:Hpsa;
    [| unfold od_contains in Hca; rewrite Hpsa in Hca; discriminate].
  destruct (od_get b (LEADERBOARD w)) as [psb|] eqn:Hpsb;
    [| unfold od_contains in Hcb; rewrite Hpsb in Hcb; discriminate].
  pose proof (inv_max w Hinv) as Hmax. pose proof (inv_len w Hinv) as Hlen.
  exists a, b, psa, psb.
  rewrite (api_game_play_round_active data w a b o Hinv Hactive Ha Hb Hrps).
  destruct (o =? 1) eqn:Ho1; [| destruct (o =? -1) eqn:Ho2];
    eexists _, _, (after_round data o a b w);
    (split; [exact Ha |]); (split; [exact Hb |]);
    (split; [exact Hpsa |]); (split; [exact Hpsb |]);
    (split; [reflexivity |]);
    unfold after_round;
    rewrite (ensure_key_present a), (ensure_key_present b), ?Ho1, ?Ho2 by assumption;
    replace (Match.round (CURRENT_MATCH w) + 1 =? Match.max_rounds (CURRENT_MATCH w))
      with true by lia;
    unfold match_winner; simpl;
    replace (Match.round (CURRENT_MATCH w) + 1 <? Match.max_rounds (CURRENT_MATCH w))
      with false by lia;
    rewrite Ha, Hb;
    od_get_simpl; rewrite Hpsa, Hpsb; simpl;
    (split; [reflexivity |]); (split; [reflexivity |]);
    (split; [reflexivity |]); (split; [reflexivity |]);
    (split; [reflexivity |]); (split; [exact Hlast |]);
    (split; [exact Hmax |]);
    (split; [rewrite length_app; simpl; lia |]);
    (split; [reflexivity |]); (split; [reflexivity |]);
    repeat match goal with |- context [if ?c >? ?d then _ else _] =>
      destruct (c >? d) end; reflexivity.
Qed.

Lemma last_round_finalizes_witness :
  let w := run (start "Alice" "Bob" :: replicate 5 (play "rock" "scissors")
                ++ replicate 4 (play "rock" "paper")) initial_world in
  exists w' : world,
    api_game_play_round {[ "p1_move" := VStr "Rock"; "p2_move" := VStr "scissors" ]} w
    = (Ok (jsonify (JState (match_summary (CURRENT_MATCH w')))), w')
    /\ Match.active (CURRENT_MATCH w') = false
    /\ Match.p1 (CURRENT_MATCH w') = Some "Alice"
    /\ Match.p2 (CURRENT_MATCH w') = None.
Proof.
  intros w.
  destruct (last_round_finalizes
              (start "Alice" "Bob" :: replicate 5 (play "rock" "scissors")
               ++ replicate 4 (play "rock" "paper"))
              {[ "p1_move" := VStr "Rock"; "p2_move" := VStr "scissors" ]} 1)
    as (a & b & psa & psb & psa' & psb' & w' & Ha & Hb & _ & _ & Hrun & _ & _ & _ & _
        & Hact & _ & _ & _ & Hp2 & _ & Hp1);
    [vm_compute; reflexivity | vm_compute; reflexivity | vm_compute; reflexivity |].
  exists w'. split; [exact Hrun |]. split; [exact Hact |]. split; [| exact Hp2].
  rewrite Hp1.
  assert (a = "Alice") as -> by (vm_compute in Ha; congruence).
  assert (Hw' : w' = (api_game_play_round
            {[ "p1_move" := VStr "Rock"; "p2_move" := VStr "scissors" ]} w).2)
    by (fold w in Hrun; now rewrite Hrun).
  rewrite Hw'. vm_compute. reflexivity.
Defined.

(** ** Starting a match *)

(** C4. In a reachable state, for a start request whose two names
    normalise to [n1] and [n2], let [e1] be the first player after the
    carry-forward substitution: the [p1] left by the previous match when
    [locked_winner_as_p1] is true, [n1] otherwise; the second player is
    always the caller's [n2].  The call answers ["Invalid player names."]
    exactly when [e1] is empty, [n2] is empty or the two are equal, and then
    the globals, the registry included, are unchanged; otherwise it starts
    the match between [e1] and [n2]. *)
Theorem start_match_invalid_players
    (rs : list request) (data : gmap string value) (n1 n2 : string) :
  let w := run rs initial_world in
  normalize_name (dict_get data "p1" (VStr "")) = Ok n1 ->
  normalize_name (dict_get data "p2" (VStr "")) = Ok n2 ->
  exists e1 : string,
    (if Match.locked_winner_as_p1 (CURRENT_MATCH w)
     then Match.p1 (CURRENT_MATCH w) = Some e1 else e1 = n1)
    /\ ((api_game_start data w).1 = Ok (jsonify_400 (JError "Invalid player names."))
        <-> e1 = "" \/ n2 = "" \/ e1 = n2)
    /\ (e1 = "" \/ n2 = "" \/ e1 = n2 -> (api_game_start data w).2 = w)
    /\ (~ (e1 = "" \/ n2 = "" \/ e1 = n2) ->
        exists w' : world,
          api_game_start data w
          = (Ok (jsonify (JState (match_summary (CURRENT_MATCH w')))), w')
          /\ Match.active (CURRENT_MATCH w') = true
          /\ Match.p1 (CURRENT_MATCH w') = Some e1
          /\ Match.p2 (CURRENT_MATCH w') = Some n2
          /\ Match.locked_winner_as_p1 (CURRENT_MATCH w') = false).
Proof.
  intros w Hn1 Hn2.
  destruct (api_game_start_inv data w n1 n2 (reachable_inv rs) Hn1 Hn2)
    as (e1 & Hsub & Heq).
  exists e1. split; [exact Hsub |]. rewrite Heq.
  destruct (bool_decide (e1 = "")) eqn:H1; simpl;
    [apply bool_decide_eq_true in H1; repeat split; tauto |].
  destruct (bool_decide (n2 = "")) eqn:H2; simpl;
    [apply bool_decide_eq_true in H2; repeat split; tauto |].
  destruct (bool_decide (e1 = n2)) eqn:H3; simpl;
    [apply bool_decide_eq_true in H3; repeat split; tauto |].
  apply bool_decide_eq_false in H1, H2, H3.
  split; [split; [discriminate | tauto] |].
  split; [tauto |].
  intros _.
  exists (World (ensure_key n2 (ensure_key e1 (LEADERBOARD w)))
            (started (CURRENT_MATCH w) (Some e1) n2)).
  split; [reflexivity |]. simpl. auto.
Qed.

Lemma start_match_invalid_players_witness :
  let w := run (start "Alice" "Bob" :: replicate 6 (play "rock" "scissors")
                ++ replicate 4 (play "rock" "paper")) initial_world in
  exists e1 : string,
    (if Match.locked_winner_as_p1 (CURRENT_MATCH w)
     then Match.p1 (CURRENT_MATCH w) = Some e1 else e1 = "Zoe")
    /\ ((api_game_start {[ "p1" := VStr "Zoe"; "p2" := VStr " Alice " ]} w).1
        = Ok (jsonify_400 (JError "Invalid player names."))
        <-> e1 = "" \/ "Alice" = "" \/ e1 = "Alice").
Proof.
  intros w.
  destruct (start_match_invalid_players
              (start "Alice" "Bob" :: replicate 6 (play "rock" "scissors")
               ++ replicate 4 (play "rock" "paper"))
              {[ "p1" := VStr "Zoe"; "p2" := VStr " Alice " ]} "Zoe" "Alice")
    as (e1 & Hsub & Hiff & _); [vm_compute; reflexivity | vm_compute; reflexivity |].
  exists e1. split; [exact Hsub | exact Hiff].
Defined.

(** ** The round counter *)

(** C7. In every reachable state the round counter is the length of
    [round_history] and the two round-win counters together are at most the
    round counter; every request leads to a state where this holds again,
    and [match_summary] reports the same numbers.  A tied round on an active
    match advances the round counter and increments neither round-win
    counter. *)
Theorem round_is_history_length (rs : list request) :
  let ok_match (cm : Match.t) : Prop :=
    Match.round cm = Z.of_nat (length (Match.round_history cm))
    /\ Match.p1_round_wins cm + Match.p2_round_wins cm <= Match.round cm in
  let w := run rs initial_world in
  ok_match (CURRENT_MATCH w)
  /\ (forall r : request, ok_match (CURRENT_MATCH (step r w)))
  /\ (let s := match_summary (CURRENT_MATCH w) in
      Summary.round s = Z.of_nat (length (Summary.round_history s))
      /\ Summary.p1_round_wins s + Summary.p2_round_wins s <= Summary.round s)
  /\ (forall data : gmap string value,
        Match.active (CURRENT_MATCH w) = true ->
        rps_result (moves_of data).1 (moves_of data).2 = Ok 0 ->
        let cm' := CURRENT_MATCH (step (PlayRound data) w) in
        Match.round cm' = Match.round (CURRENT_MATCH w) + 1
        /\ Match.p1_round_wins cm' = Match.p1_round_wins (CURRENT_MATCH w)
        /\ Match.p2_round_wins cm' = Match.p2_round_wins (CURRENT_MATCH w)).
Proof.
  intros ok_match w.
  assert (Hok : forall w0, inv w0 -> ok_match (CURRENT_MATCH w0)).
  { intros w0 H0. split; [apply H0 | apply (inv_wins w0 H0)]. }
  pose proof (reachable_inv rs) as Hinv. fold w in Hinv.
  split; [exact (Hok w Hinv) |].
  split; [intros r; apply Hok, step_inv, Hinv |].
  split; [exact (Hok w Hinv) |].
  intros data Hactive Hrps.
  destruct (inv_active w Hinv Hactive) as (_ & _ & a & b & Ha & Hb & _).
  unfold step. simpl handle.
  rewrite (api_game_play_round_active data w a b 0 Hinv Hactive Ha Hb Hrps).
  unfold after_round. simpl.
  destruct (_ =? _); simpl; auto.
Qed.

Lemma round_is_history_length_witness :
  let w := run [start "Ann" "Bea"; play "rock" "paper"] initial_world in
  let cm' := CURRENT_MATCH (step (play "paper" "Paper") w) in
  Match.round cm' = Match.round (CURRENT_MATCH w) + 1
  /\ Match.p1_round_wins cm' = Match.p1_round_wins (CURRENT_MATCH w)
  /\ Match.p2_round_wins cm' = Match.p2_round_wins (CURRENT_MATCH w).
Proof.
  apply (round_is_history_length [start "Ann" "Bea"; play "rock" "paper"]);
    vm_compute; reflexivity.
Defined.

(** ** Score and wins *)

Lemma ensure_key_get_some (n k : string) (lb : odict PlayerStats.t) (ps : PlayerStats.t) :
  od_get k lb = Some ps -> od_get k (ensure_key n lb) = Some ps.
Proof.
  intros Hps. destruct (decide (n = k)) as [-> | Hne].
  - rewrite ensure_key_present; [exact Hps |]. unfold od_contains. now rewrite Hps.
  - now rewrite ensure_key_get_other.
Qed.

(** A request never removes a record, and changes its score and its wins
    together: both stay, or both go up by 1. *)
Lemma step_score_wins (r : request) (w : world) (k : string) (ps : PlayerStats.t) :
  inv w ->
  od_get k (LEADERBOARD w) = Some ps ->
  exists ps' : PlayerStats.t,
    od_get k (LEADERBOARD (step r w)) = Some ps'
    /\ (PlayerStats.score ps' = PlayerStats.score ps
         /\ PlayerStats.wins ps' = PlayerStats.wins ps
        \/ PlayerStats.score ps' = PlayerStats.score ps + 1
           /\ PlayerStats.wins ps' = PlayerStats.wins ps + 1).
Proof.
  intros Hinv Hps.
  assert (Hsame : forall lb', od_get k lb' = Some ps ->
    exists ps', od_get k lb' = Some ps'
      /\ (PlayerStats.score ps' = PlayerStats.score ps
           /\ PlayerStats.wins ps' = PlayerStats.wins ps
          \/ PlayerStats.score ps' = PlayerStats.score ps + 1
             /\ PlayerStats.wins ps' = PlayerStats.wins ps + 1)).
  { intros lb' H'. exists ps. auto. }
  unfold step. destruct r as [data | data | data |]; simpl.
  - rewrite api_register_player_eq.
    destruct (normalize_name _) as [n|e]; [| now apply Hsame].
    case_bool_decide; [now apply Hsame |]. simpl.
    now apply Hsame, ensure_key_get_some.
  - destruct (normalize_name (dict_get data "p1" (VStr ""))) as [n1|e] eqn:Hn1.
    2: { rewrite api_game_start_eq, Hn1. now apply Hsame. }
    destruct (normalize_name (dict_get data "p2" (VStr ""))) as [n2|e] eqn:Hn2.
    2: { rewrite api_game_start_eq, Hn1, Hn2. now apply Hsame. }
    destruct (api_game_start_inv data w n1 n2 Hinv Hn1 Hn2) as (e1 & _ & ->).
    destruct (_ || _ || _); simpl; [now apply Hsame |].
    now apply Hsame, ensure_key_get_some, ensure_key_get_some.
  - destruct (Match.active (CURRENT_MATCH w)) eqn:Hactive.
    2: { rewrite api_game_play_round_eq. simpl. rewrite Hactive. now apply Hsame. }
    destruct (inv_active w Hinv Hactive)
      as (Hlt & _ & a & b & Ha & Hb & Hab & _ & _ & Hca & Hcb).
    destruct (rps_result (dict_get data "p1_move" (VStr ""))
                (dict_get data "p2_move" (VStr ""))) as [o|e] eqn:Hrps.
    2: { rewrite api_game_play_round_eq. simpl. rewrite Hactive, Hrps. simpl.
         destruct (_ >=? _); now apply Hsame. }
    rewrite (api_game_play_round_active data w a b o) by assumption.
    unfold after_round. simpl.
    rewrite (ensure_key_present a), (ensure_key_present b) by assumption.
    destruct (decide (k = a)) as [-> | Hka]; [| destruct (decide (k = b)) as [-> | Hkb]];
      destruct (o =? 1); try destruct (o =? -1);
      destruct (_ =? _); simpl;
      od_get_simpl; rewrite Hps; simpl;
      eexists; (split; [reflexivity |]); simpl; auto.
  - now apply Hsame.
Qed.

(** C10. In every reachable state every record of the registry has its
    score equal to its wins: a new record has both at zero, and a request
    leaves the two of a record as they are or adds 1 to both.  So for the
    players of a reachable registry the (score, wins) key compares as the
    score alone, and two players with the same score have the same key. *)
Theorem score_equals_wins (rs : list request) :
  let w := run rs initial_world in
  let lb := LEADERBOARD w in
  Forall (fun kv => PlayerStats.score kv.2 = PlayerStats.wins kv.2) lb
  /\ (forall n : string,
        PlayerStats.score (PlayerStats.new n) = 0
        /\ PlayerStats.wins (PlayerStats.new n) = 0)
  /\ (forall (r : request) (k : string) (ps : PlayerStats.t),
        od_get k lb = Some ps ->
        exists ps' : PlayerStats.t,
          od_get k (LEADERBOARD (step r w)) = Some ps'
          /\ (PlayerStats.score ps' = PlayerStats.score ps
               /\ PlayerStats.wins ps' = PlayerStats.wins ps
              \/ PlayerStats.score ps' = PlayerStats.score ps + 1
                 /\ PlayerStats.wins ps' = PlayerStats.wins ps + 1))
  /\ (forall x y : PlayerStats.t,
        x ∈ Views.by_score (leaderboard_views lb) ->
        y ∈ Views.by_score (leaderboard_views lb) ->
        tuple_lt (score_key x) (score_key y)
        = (PlayerStats.score x <? PlayerStats.score y)
        /\ (PlayerStats.score x = PlayerStats.score y -> score_key x = score_key y)).
Proof.
  intros w lb.
  pose proof (reachable_inv rs) as Hinv. fold w in Hinv.
  pose proof (inv_scores _ Hinv) as Hsc. fold lb in Hsc.
  split; [exact Hsc |]. split; [intros n; split; reflexivity |].
  split; [intros r k ps Hps; now apply step_score_wins |].
  assert (Hin : forall x, x ∈ Views.by_score (leaderboard_views lb) ->
                          PlayerStats.score x = PlayerStats.wins x).
  { intros x Hx.
    rewrite by_score_eq, py_sorted_reverse_perm in Hx.
    unfold od_values in Hx. apply list_elem_of_fmap in Hx as (kv & -> & Hkv).
    rewrite Forall_forall in Hsc. exact (Hsc kv Hkv). }
  intros x y Hx Hy. apply Hin in Hx, Hy.
  unfold tuple_lt, score_key. simpl. rewrite <- Hx, <- Hy.
  split; [lia | now intros ->].
Qed.

Lemma score_equals_wins_witness :
  let w := run [start "Ann" "Bea"; play "rock" "scissors"] initial_world in
  let ann := PlayerStats.mk "Ann" 1 1 0 0 0 in
  let bea := PlayerStats.mk "Bea" 0 0 1 0 0 in
  (exists ps' : PlayerStats.t,
      od_get "Ann" (LEADERBOARD (step (play "paper" "rock") w)) = Some ps'
      /\ (PlayerStats.score ps' = PlayerStats.score ann
           /\ PlayerStats.wins ps' = PlayerStats.wins ann
          \/ PlayerStats.score ps' = PlayerStats.score ann + 1
             /\ PlayerStats.wins ps' = PlayerStats.wins ann + 1))
  /\ tuple_lt (score_key bea) (score_key ann)
     = (PlayerStats.score bea <? PlayerStats.score ann)
  /\ (PlayerStats.score bea = PlayerStats.score ann -> score_key bea = score_key ann).
Proof.
  split.
  - apply (score_equals_wins [start "Ann" "Bea"; play "rock" "scissors"]).
    vm_compute. reflexivity.
  - apply (score_equals_wins [start "Ann" "Bea"; play "rock" "scissors"]);
      vm_compute; repeat constructor.
Defined.

(** * Further properties *)

(** ** What [rps_result] can return *)

Lemma beats_lookup (m : string) : m ∈ MOVES -> exists b, beats !! m = Some b.
Proof.
  rewrite elem_of_MOVES. intros [-> | [-> | ->]]; eexists; vm_compute; reflexivity.
Qed.

Lemma as_str_or (v : value) :
  as_str (py_or v (VStr ""))
  = if not_str v then Raise AttributeError
    else Ok (str_of v).
Proof.
  destruct v as [| [] | n | s]; try reflexivity.
  - unfold py_or, not_str. simpl. now destruct (n =? 0).
  - apply as_str_or_empty.
Qed.

Lemma rps_result_cases (move1 move2 : value) :
  (exists r : Z, rps_result move1 move2 = Ok r /\ (r = 0 \/ r = 1 \/ r = -1))
  \/ rps_result move1 move2 = Raise (ValueError "Moves must be rock, paper, or scissors.")
  \/ rps_result move1 move2 = Raise AttributeError.
Proof.
  unfold rps_result. rewrite !as_str_or.
  destruct (not_str move1); simpl; [auto |].
  destruct (not_str move2); simpl; [auto |].
  set (m1 := PyStr.lower _). set (m2 := PyStr.lower _).
  destruct (decide (m1 ∈ MOVES)) as [H1 | H1];
    [rewrite (bool_decide_eq_true_2 _ H1) | rewrite (bool_decide_eq_false_2 _ H1); auto].
  destruct (decide (m2 ∈ MOVES)) as [H2 | H2];
    [rewrite (bool_decide_eq_true_2 _ H2) | rewrite (bool_decide_eq_false_2 _ H2); auto].
  simpl. case_bool_decide; [left; eexists; eauto |].
  destruct (beats_lookup m1 H1) as (b & Hb). unfold getitem. rewrite Hb. simpl.
  left. eexists. split; [reflexivity |]. case_bool_decide; auto.
Qed.

(** ** The outcomes of a request *)

Lemma handle_outcome (r : request) (w : world) :
  inv w -> outcome w r (handle r w).1 (handle r w).2.
Proof.
  intros Hinv. destruct r as [data | data | data |]; simpl.
  - rewrite api_register_player_eq.
    destruct (normalize_name _) as [n|e] eqn:Hn.
    + case_bool_decide as Hne; simpl.
      * subst n. now apply register_empty.
      * now apply register_ok.
    + pose proof (normalize_name_raise _ _ Hn) as ->. simpl.
      now apply register_raises.
  - destruct (normalize_name (dict_get data "p1" (VStr ""))) as [n1|e] eqn:Hn1.
    2: { rewrite api_game_start_eq, Hn1. simpl.
         pose proof (normalize_name_raise _ _ Hn1) as ->.
         apply start_raises. now left. }
    destruct (normalize_name (dict_get data "p2" (VStr ""))) as [n2|e] eqn:Hn2.
    2: { rewrite api_game_start_eq, Hn1, Hn2. simpl.
         pose proof (normalize_name_raise _ _ Hn2) as ->.
         apply start_raises. now right. }
    destruct (api_game_start_inv data w n1 n2 Hinv Hn1 Hn2) as (e1 & Hsub & ->).
    destruct (bool_decide (e1 = "")) eqn:H1; simpl;
      [apply bool_decide_eq_true in H1; eapply start_invalid; eauto |].
    destruct (bool_decide (n2 = "")) eqn:H2; simpl;
      [apply bool_decide_eq_true in H2; eapply start_invalid; eauto |].
    destruct (bool_decide (e1 = n2)) eqn:H3; simpl;
      [apply bool_decide_eq_true in H3; eapply start_invalid; eauto |].
    apply bool_decide_eq_false in H1, H2, H3.
    eapply start_ok; eauto.
    + destruct (Match.locked_winner_as_p1 (CURRENT_MATCH w)) eqn:Hlk.
      * destruct (inv_locked w Hinv Hlk) as (c & Hc & Hnc). congruence.
      * subst e1. exact (normalize_name_normalized _ _ Hn1 H1).
    + exact (normalize_name_normalized _ _ Hn2 H2).
  - destruct (Match.active (CURRENT_MATCH w)) eqn:Hactive.
    2: { rewrite api_game_play_round_eq. simpl. rewrite Hactive. simpl.
         now apply play_inactive. }
    destruct (inv_active w Hinv Hactive) as (Hlt & _ & a & b & Ha & Hb & _).
    destruct (rps_result (moves_of data).1 (moves_of data).2) as [o|e] eqn:Hrps.
    + rewrite (api_game_play_round_active data w a b o) by assumption. simpl.
      apply play_ok; try assumption.
      destruct (rps_result_cases (moves_of data).1 (moves_of data).2)
        as [(r & Hr & Ho) | [Hr | Hr]]; congruence.
    + rewrite (api_game_play_round_raise data w e) by assumption. simpl.
      apply play_raises; try assumption.
      destruct (rps_result_cases (moves_of data).1 (moves_of data).2)
        as [(r & Hr & Ho) | [Hr | Hr]]; [congruence | left | right]; congruence.
  - apply leaderboard_ok.
Qed.

(** ** Lookups in the registry *)

Lemma keys_of_alter (f : PlayerStats.t -> PlayerStats.t) (k : string) (lb : odict PlayerStats.t) :
  keys_of (od_alter f k lb) = keys_of lb.
Proof.
  unfold keys_of. induction lb as [|[k' v] lb IH]; simpl; [reflexivity |].
  case_bool_decide; simpl; [reflexivity | f_equal; exact IH].
Qed.

Lemma od_get_None (k : string) (lb : odict PlayerStats.t) :
  od_get k lb = None <-> k ∉ keys_of lb.
Proof.
  unfold keys_of. induction lb as [|[k' v] lb IH]; simpl.
  - split; [intros _; apply not_elem_of_nil | reflexivity].
  - rewrite not_elem_of_cons. case_bool_decide; [| tauto].
    split; [discriminate | tauto].
Qed.

(** With distinct keys, a lookup finds every entry. *)
Lemma od_get_elem (k : string) (ps : PlayerStats.t) (lb : odict PlayerStats.t) :
  NoDup (keys_of lb) -> (od_get k lb = Some ps <-> (k, ps) ∈ lb).
Proof.
  unfold keys_of. induction lb as [|[k' v] lb IH]; simpl; intros Hnd.
  - split; [discriminate | intros H; now apply elem_of_nil in H].
  - apply NoDup_cons in Hnd as [Hk' Hnd]. rewrite elem_of_cons.
    case_bool_decide as Hk.
    + subst k'. split; [intros [= ->]; now left |].
      intros [[= ->] | Hin]; [reflexivity |].
      exfalso. apply Hk'. apply list_elem_of_fmap. now exists (k, ps).
    + rewrite (IH Hnd). split; [tauto |]. intros [[= -> ->] | Hin]; [contradiction | exact Hin].
Qed.

Lemma ensure_key_keys (n : string) (lb : odict PlayerStats.t) :
  keys_of (ensure_key n lb)
  = if od_contains n lb then keys_of lb else keys_of lb ++ [n].
Proof.
  unfold ensure_key, od_contains.
  destruct (od_get n lb) eqn:Hn; [reflexivity |].
  rewrite od_set_fresh by exact Hn. unfold keys_of. now rewrite fmap_app.
Qed.

Lemma ensure_key_get_new (n k : string) (lb : odict PlayerStats.t) :
  od_get k (ensure_key n lb)
  = match od_get k lb with
    | Some ps => Some ps
    | None => if bool_decide (k = n) then Some (PlayerStats.new n) else None
    end.
Proof.
  destruct (od_get k lb) as [ps|] eqn:Hk.
  - now apply ensure_key_get_some.
  - case_bool_decide as Hkn.
    + subst k. rewrite ensure_key_get, Hk. reflexivity.
    + rewrite ensure_key_get_other by congruence. exact Hk.
Qed.

(** The registry after a round, entry by entry. *)
Lemma after_round_get
    (data : gmap string value) (o : Z) (a b : string) (w : world) (k : string) :
  od_contains a (LEADERBOARD w) = true ->
  od_contains b (LEADERBOARD w) = true ->
  a <> b ->
  od_get k (LEADERBOARD (after_round data o a b w))
  = if bool_decide (k = a)
    then played o true (last_round (CURRENT_MATCH w)) <$> od_get k (LEADERBOARD w)
    else if bool_decide (k = b)
    then played o false (last_round (CURRENT_MATCH w)) <$> od_get k (LEADERBOARD w)
    else od_get k (LEADERBOARD w).
Proof.
  intros Hca Hcb Hab. unfold after_round, played, last_round.
  rewrite (ensure_key_present a), (ensure_key_present b) by assumption.
  destruct (decide (k = a)) as [-> | Hka]; [| destruct (decide (k = b)) as [-> | Hkb]];
    repeat case_bool_decide; try congruence;
    destruct (o =? 1); try destruct (o =? -1);
    destruct (_ =? _); simpl;
    od_get_simpl; now destruct (od_get _ (LEADERBOARD w)).
Qed.

Lemma after_round_keys (data : gmap string value) (o : Z) (a b : string) (w : world) :
  od_contains a (LEADERBOARD w) = true ->
  od_contains b (LEADERBOARD w) = true ->
  keys_of (LEADERBOARD (after_round data o a b w)) = keys_of (LEADERBOARD w).
Proof.
  intros Hca Hcb. unfold after_round.
  rewrite (ensure_key_present a), (ensure_key_present b) by assumption.
  destruct (o =? 1); try destruct (o =? -1); destruct (_ =? _); simpl;
    now rewrite !keys_of_alter.
Qed.

(** The match after a round. *)
Lemma after_round_match (data : gmap string value) (o : Z) (a b : string) (w : world) :
  let cm := CURRENT_MATCH w in
  let cm' := CURRENT_MATCH (after_round data o a b w) in
  Match.round cm' = Match.round cm + 1
  /\ Match.max_rounds cm' = Match.max_rounds cm
  /\ Match.p1_round_wins cm' = Match.p1_round_wins cm + (if o =? 1 then 1 else 0)
  /\ Match.p2_round_wins cm' = Match.p2_round_wins cm + (if o =? -1 then 1 else 0)
  /\ Match.round_history cm'
     = Match.round_history cm
       ++ [Round.mk (Match.round cm + 1) (moves_of data).1 (moves_of data).2
             (if o =? 1 then Match.p1 cm else if o =? -1 then Match.p2 cm else None)]
  /\ (last_round cm = false ->
      Match.active cm' = Match.active cm
      /\ Match.p1 cm' = Match.p1 cm
      /\ Match.p2 cm' = Match.p2 cm
      /\ Match.locked_winner_as_p1 cm' = Match.locked_winner_as_p1 cm)
  /\ (last_round cm = true ->
      Match.active cm' = false
      /\ Match.p2 cm' = None
      /\ Match.locked_winner_as_p1 cm' = true).
Proof.
  unfold after_round, last_round, moves_of. simpl.
  destruct (_ + 1 =? _); simpl;
    destruct (o =? 1) eqn:H1; [| destruct (o =? -1) eqn:H2 | | destruct (o =? -1) eqn:H2];
    repeat split; try discriminate; try lia; try reflexivity;
    apply Z.eqb_eq in H1; subst o; simpl; lia.
Qed.

(** ** Totals over the registry *)

Lemma total_app (f : PlayerStats.t -> Z) (l1 l2 : odict PlayerStats.t) :
  total f (l1 ++ l2) = total f l1 + total f l2.
Proof. unfold total. induction l1 as [|kv l1 IH]; simpl; [reflexivity | lia]. Qed.

Lemma total_alter_same (f : PlayerStats.t -> Z) (g : PlayerStats.t -> PlayerStats.t)
    (k : string) (lb : odict PlayerStats.t) :
  (forall v, f (g v) = f v) -> total f (od_alter g k lb) = total f lb.
Proof.
  intros Hg. unfold total. induction lb as [|[k' v] lb IH]; simpl; [reflexivity |].
  case_bool_decide; simpl; [now rewrite Hg | now rewrite IH].
Qed.

Lemma total_alter_incr (f : PlayerStats.t -> Z) (g : PlayerStats.t -> PlayerStats.t)
    (k : string) (lb : odict PlayerStats.t) :
  (forall v, f (g v) = f v + 1) ->
  od_contains k lb = true ->
  total f (od_alter g k lb) = total f lb + 1.
Proof.
  intros Hg. unfold total, od_contains.
  induction lb as [|[k' v] lb IH]; simpl; [discriminate |].
  case_bool_decide; simpl; intros Hc; [rewrite Hg; lia | rewrite IH by exact Hc; lia].
Qed.

Lemma total_ensure_key (f : PlayerStats.t -> Z) (n : string) (lb : odict PlayerStats.t) :
  f (PlayerStats.new n) = 0 -> total f (ensure_key n lb) = total f lb.
Proof.
  intros Hf. unfold ensure_key, od_contains.
  destruct (od_get n lb) eqn:Hn; [reflexivity |].
  rewrite od_set_fresh, total_app by exact Hn. unfold total at 2. simpl. lia.
Qed.

Local Ltac total_simpl :=
  repeat first
    [ rewrite total_alter_same by (intros; reflexivity)
    | rewrite total_alter_incr
        by first [ intros; reflexivity | rewrite ?od_contains_alter; assumption ] ].

(** What a round adds to the totals. *)
Lemma after_round_totals (data : gmap string value) (o : Z) (a b : string) (w : world) :
  od_contains a (LEADERBOARD w) = true ->
  od_contains b (LEADERBOARD w) = true ->
  let lb := LEADERBOARD w in
  let lb' := LEADERBOARD (after_round data o a b w) in
  let decided := if o =? 1 then 1 else if o =? -1 then 1 else 0 in
  total PlayerStats.wins lb' = total PlayerStats.wins lb + decided
  /\ total PlayerStats.losses lb' = total PlayerStats.losses lb + decided
  /\ total PlayerStats.ties lb' = total PlayerStats.ties lb + 2 * (1 - decided).
Proof.
  intros Hca Hcb. unfold after_round.
  rewrite (ensure_key_present a), (ensure_key_present b) by assumption.
  destruct (o =? 1); try destruct (o =? -1); destruct (_ =? _); simpl;
    total_simpl; repeat split; lia.
Qed.

(** ** Rounds won *)

Lemma rounds_won_snoc (p : option string) (history : list Round.t) (r : Round.t) :
  rounds_won p (history ++ [r])
  = rounds_won p history + (if bool_decide (Round.round_winner r = p) then 1 else 0).
Proof.
  unfold rounds_won. rewrite filter_app, length_app, filter_cons, filter_nil.
  case_bool_decide as Hr; destruct (decide (Round.round_winner r = p));
    try contradiction; simpl; lia.
Qed.

Lemma played_fields (o : Z) (first last : bool) (ps : PlayerStats.t) :
  PlayerStats.name (played o first last ps) = PlayerStats.name ps
  /\ rounds_of (played o first last ps) = rounds_of ps + 1
  /\ PlayerStats.games_played (played o first last ps)
     = PlayerStats.games_played ps + (if last then 1 else 0)
  /\ PlayerStats.score ps <= PlayerStats.score (played o first last ps)
  /\ PlayerStats.wins ps <= PlayerStats.wins (played o first last ps)
  /\ PlayerStats.losses ps <= PlayerStats.losses (played o first last ps)
  /\ PlayerStats.ties ps <= PlayerStats.ties (played o first last ps).
Proof.
  unfold played, rounds_of.
  destruct (o =? 1), (o =? -1), first, last; simpl; repeat split; lia.
Qed.

(** ** The statistics and the history, kept by every request *)

Lemma wf_initial : wf initial_world.
Proof.
  constructor; simpl.
  - constructor.
  - discriminate.
  - split; [reflexivity | now exists 0].
  - now left.
  - intros i r H. now rewrite lookup_nil in H.
  - reflexivity.
  - discriminate.
Qed.

(** A player of the match in progress is in the registry. *)
Lemma in_play_contains (k : string) (w : world) :
  inv w -> in_play k (CURRENT_MATCH w) = true -> od_contains k (LEADERBOARD w) = true.
Proof.
  intros Hinv. unfold in_play. intros [Hactive Hk]%andb_prop.
  destruct (inv_active w Hinv Hactive) as (_ & _ & a & b & Ha & Hb & _ & _ & _ & Hca & Hcb).
  apply orb_prop in Hk as [Hk | Hk]; apply bool_decide_eq_true in Hk; congruence.
Qed.

Lemma wf_ensure_key (n : string) (w : world) :
  normalized n -> inv w -> wf w ->
  wf (World (ensure_key n (LEADERBOARD w)) (CURRENT_MATCH w)).
Proof.
  intros Hn Hinv [Hkeys Hrec Htot Hph Hnum Htied Hwon].
  constructor; simpl; try assumption.
  - rewrite ensure_key_keys. unfold od_contains.
    destruct (od_get n (LEADERBOARD w)) eqn:Hget; [exact Hkeys |].
    apply NoDup_app. split; [exact Hkeys |]. split; [| apply NoDup_singleton].
    intros k Hk Hk'. apply list_elem_of_singleton in Hk' as ->.
    now apply od_get_None in Hget.
  - intros k ps. rewrite ensure_key_get_new.
    destruct (od_get k (LEADERBOARD w)) as [ps0|] eqn:Hget.
    + intros [= <-]. now apply Hrec.
    + case_bool_decide as Hk; [| discriminate]. subst k. intros [= <-].
      unfold record_ok, rounds_of. simpl.
      destruct (in_play n (CURRENT_MATCH w)) eqn:Hin.
      * apply (in_play_contains n w Hinv) in Hin.
        unfold od_contains in Hin. rewrite Hget in Hin. discriminate.
      * repeat split; try lia; apply Hn.
  - now rewrite !total_ensure_key by reflexivity.
Qed.

Lemma wf_started (w : world) (p1 : option string) (n2 : string) :
  inv w -> wf w ->
  wf (World (LEADERBOARD w) (started (CURRENT_MATCH w) p1 n2)).
Proof.
  intros Hinv [Hkeys Hrec Htot Hph Hnum Htied Hwon].
  constructor; simpl; try assumption.
  - intros k ps Hget. destruct (Hrec k ps Hget) as (H1 & H2 & H3 & H4 & H5 & H6 & H7 & H8).
    unfold record_ok. simpl. repeat split; try assumption; try apply H2.
    pose proof (inv_len w Hinv) as Hlen.
    destruct (in_play k (CURRENT_MATCH w));
      match goal with |- context [if ?c then _ else _] => destruct c end; lia.
  - right. now left.
  - intros i r H. now rewrite lookup_nil in H.
  - reflexivity.
  - intros _. split; reflexivity.
Qed.

Lemma wf_after_round (data : gmap string value) (o : Z) (a b : string) (w : world) :
  inv w -> wf w ->
  Match.active (CURRENT_MATCH w) = true ->
  Match.p1 (CURRENT_MATCH w) = Some a ->
  Match.p2 (CURRENT_MATCH w) = Some b ->
  wf (after_round data o a b w).
Proof.
  intros Hinv [Hkeys Hrec Htot Hph Hnum Htied Hwon] Hactive Hp1 Hp2.
  destruct (inv_active w Hinv Hactive)
    as (Hlt & Hlk & a' & b' & Ha & Hb & Hab & Hna & Hnb & Hca & Hcb).
  assert (a' = a) as -> by congruence. assert (b' = b) as -> by congruence.
  pose proof (inv_len w Hinv) as Hlen.
  destruct (after_round_match data o a b w)
    as (Hround & Hmax & Hw1 & Hw2 & Hhist & Hcont & Hfin).
  destruct (Hwon Hactive) as [Hwon1 Hwon2].
  constructor.
  - now rewrite after_round_keys.
  - intros k ps'. rewrite after_round_get by assumption.
    assert (Hplayed : forall (fp : bool) (ps : PlayerStats.t),
      k = (if fp then a else b) ->
      od_get k (LEADERBOARD w) = Some ps ->
      record_ok (CURRENT_MATCH (after_round data o a b w)) k
        (played o fp (last_round (CURRENT_MATCH w)) ps)).
    { intros fp ps Hk Hget.
      destruct (Hrec k ps Hget) as (H1 & H2 & H3 & H4 & H5 & H6 & H7 & H8).
      destruct (played_fields o fp (last_round (CURRENT_MATCH w)) ps)
        as (F1 & F2 & F3 & F4 & F5 & F6 & F7).
      assert (Hin : in_play k (CURRENT_MATCH w) = true).
      { unfold in_play. rewrite Hactive, Hp1, Hp2. simpl.
        destruct fp; subst k; repeat case_bool_decide; try congruence; reflexivity. }
      rewrite Hin in H8.
      assert (Hin' :
        (if in_play k (CURRENT_MATCH (after_round data o a b w))
         then Match.round (CURRENT_MATCH w) + 1 else 0)
        <= (if last_round (CURRENT_MATCH w) then 0 else Match.round (CURRENT_MATCH w) + 1)).
      { destruct (last_round (CURRENT_MATCH w)) eqn:Hlast.
        - unfold in_play. destruct (Hfin eq_refl) as (-> & _). simpl. lia.
        - destruct (in_play k (CURRENT_MATCH (after_round data o a b w))); lia. }
      unfold record_ok. rewrite F1, F2, F3, Hmax, Hround.
      unfold last_round in *.
      destruct (Match.round (CURRENT_MATCH w) + 1 =? Match.max_rounds (CURRENT_MATCH w))
        eqn:Hlast;
        repeat split; try assumption; try apply H2; try lia. }
    case_bool_decide as Hka; [| case_bool_decide as Hkb].
    + destruct (od_get k (LEADERBOARD w)) as [ps|] eqn:Hget; [| discriminate].
      intros [= <-]. now apply (Hplayed true).
    + destruct (od_get k (LEADERBOARD w)) as [ps|] eqn:Hget; [| discriminate].
      intros [= <-]. now apply (Hplayed false).
    + intros Hget.
      destruct (Hrec k ps' Hget) as (H1 & H2 & H3 & H4 & H5 & H6 & H7 & H8).
      assert (Hin : in_play k (CURRENT_MATCH w) = false).
      { unfold in_play. rewrite Hp1, Hp2.
        rewrite !bool_decide_eq_false_2 by congruence. apply andb_false_r. }
      rewrite Hin in H8.
      unfold record_ok. rewrite Hmax. repeat split; try assumption; try apply H2.
      destruct (last_round (CURRENT_MATCH w)) eqn:Hlast.
      * unfold in_play. destruct (Hfin eq_refl) as (-> & _). simpl. lia.
      * unfold in_play. destruct (Hcont eq_refl) as (_ & -> & -> & _).
        rewrite Hp1, Hp2, !bool_decide_eq_false_2 by congruence.
        rewrite andb_false_r. lia.
  - destruct (after_round_totals data o a b w Hca Hcb) as (T1 & T2 & T3).
    destruct Htot as [Hwl (n & Hn)].
    rewrite T1, T2, T3, Hwl, Hn. split; [reflexivity |].
    destruct (o =? 1); [| destruct (o =? -1)];
      [exists n | exists n | exists (n + 1)]; lia.
  - unfold phase. destruct (last_round (CURRENT_MATCH w)) eqn:Hlast.
    + destruct (Hfin eq_refl) as (H1 & H2 & H3).
      right. right. unfold last_round in Hlast.
      repeat split; try assumption. lia.
    + destruct (Hcont eq_refl) as (H1 & _). right. left. congruence.
  - intros i r. rewrite Hhist. intros Hi.
    apply lookup_app_Some in Hi as [Hi | [Hge Hi]]; [now apply Hnum |].
    apply list_lookup_singleton_Some in Hi as [Hi <-]. simpl. lia.
  - rewrite Hhist, rounds_won_snoc, Htied, Hround, Hw1, Hw2. simpl.
    rewrite Hp1, Hp2.
    destruct (o =? 1) eqn:Ho; [apply Z.eqb_eq in Ho; subst o; simpl | destruct (o =? -1)];
      rewrite ?bool_decide_eq_false_2 by discriminate;
      rewrite ?bool_decide_eq_true_2 by reflexivity; lia.
  - intros Hact'.
    destruct (last_round (CURRENT_MATCH w)) eqn:Hlast;
      [destruct (Hfin eq_refl) as (H1 & _); congruence |].
    destruct (Hcont eq_refl) as (_ & -> & -> & _).
    rewrite Hhist, !rounds_won_snoc, Hw1, Hw2, <- Hwon1, <- Hwon2. simpl.
    rewrite Hp1, Hp2.
    destruct (o =? 1) eqn:Ho; [apply Z.eqb_eq in Ho; subst o; simpl | destruct (o =? -1)];
      rewrite ?(bool_decide_eq_true_2 (Some a = Some a)),
              ?(bool_decide_eq_true_2 (Some b = Some b)) by reflexivity;
      rewrite ?(bool_decide_eq_false_2 (Some a = Some b)),
              ?(bool_decide_eq_false_2 (Some b = Some a)),
              ?(bool_decide_eq_false_2 (None = Some a)),
              ?(bool_decide_eq_false_2 (None = Some b)) by congruence;
      split; lia.
Qed.

Lemma outcome_wf (w w' : world) (r : request) (res : result response) :
  inv w -> wf w -> outcome w r res w' -> wf w'.
Proof.
  intros Hinv Hwf Hout.
  destruct Hout; try exact Hwf.
  - apply wf_ensure_key; try assumption.
    eapply normalize_name_normalized; eassumption.
  - apply (wf_started (World (ensure_key n2 (ensure_key e1 (LEADERBOARD w))) (CURRENT_MATCH w))).
    + apply (inv_ensure_key n2 (World (ensure_key e1 (LEADERBOARD w)) (CURRENT_MATCH w))).
      now apply inv_ensure_key.
    + apply (wf_ensure_key n2 (World (ensure_key e1 (LEADERBOARD w)) (CURRENT_MATCH w)));
        [assumption | now apply inv_ensure_key | now apply wf_ensure_key].
  - now apply wf_after_round.
Qed.

Lemma step_wf (r : request) (w : world) : inv w -> wf w -> wf (step r w).
Proof.
  intros Hinv Hwf. exact (outcome_wf _ _ _ _ Hinv Hwf (handle_outcome r w Hinv)).
Qed.

Lemma reachable_wf (rs : list request) : wf (run rs initial_world).
Proof.
  assert (H : forall w, inv w -> wf w -> wf (run rs w)).
  { induction rs as [|r rs IH]; intros w Hinv Hwf; simpl; [exact Hwf |].
    apply IH; [now apply step_inv | now apply step_wf]. }
  apply H; [apply inv_initial | apply wf_initial].
Qed.

(** ** The normal form of a name *)

Lemma rstrip_no_space (s : string) :
  PyStr.all_chars (fun c => negb (PyStr.isspace c)) s = true -> PyStr.rstrip s = s.
Proof.
  induction s as [|c s IH]; simpl; [reflexivity |].
  intros [Hc Hs]%andb_prop. apply negb_true_iff in Hc.
  now rewrite Hc, IH.
Qed.

Lemma rstrip_app_word (s w : string) :
  PyStr.word w -> PyStr.rstrip (s +:+ w) = s +:+ w.
Proof.
  intros [Hne Hw]. induction s as [|c s IH].
  - rewrite PyStrFacts.append_nil_l. now apply rstrip_no_space.
  - rewrite PyStrFacts.append_cons. simpl. rewrite IH.
    case_bool_decide as He; [| now rewrite andb_false_r].
    apply PyStrFacts.append_eq_empty in He as [_ He]. contradiction.
Qed.

(** The joined words end with the last word. *)
Lemma join_ends_with_word (ws : list string) :
  Forall PyStr.word ws -> ws <> [] ->
  exists p l : string, PyStr.word l /\ PyStr.join " " ws = p +:+ l.
Proof.
  induction 1 as [|w ws Hw Hws IH]; [contradiction |]. intros _.
  destruct ws as [|w' ws].
  - exists "", w. split; [exact Hw | reflexivity].
  - destruct IH as (p & l & Hl & Hj); [discriminate |].
    exists (w +:+ " " +:+ p), l. split; [exact Hl |].
    rewrite PyStrFacts.join_cons2, Hj, !PyStrFacts.append_assoc. reflexivity.
Qed.

Lemma strip_join (ws : list string) :
  Forall PyStr.word ws -> PyStr.strip (PyStr.join " " ws) = PyStr.join " " ws.
Proof.
  intros Hws. unfold PyStr.strip.
  destruct ws as [|w ws]; [reflexivity |].
  assert (Hl : PyStr.lstrip (PyStr.join " " (w :: ws)) = PyStr.join " " (w :: ws)).
  { apply Forall_cons in Hws as [[Hne Hw] _].
    destruct w as [|c w]; [contradiction |].
    simpl in Hw. apply andb_prop in Hw as [Hc _]. apply negb_true_iff in Hc.
    destruct ws as [|w' ws]; [simpl; now rewrite Hc |].
    rewrite PyStrFacts.join_cons2, PyStrFacts.append_cons. simpl. now rewrite Hc. }
  rewrite Hl.
  destruct (join_ends_with_word (w :: ws) Hws) as (p & l & Hword & ->); [discriminate |].
  now apply rstrip_app_word.
Qed.

(** X1. For every string, [normalize_name] returns a name [n] that is its
    own normal form, has the words of the string, and has no whitespace at
    either end; two strings are given the same name exactly when they have
    the same words. *)
Theorem normalize_name_canonical (s : string) :
  exists n : string,
    normalize_name (VStr s) = Ok n
    /\ normalize_name (VStr n) = Ok n
    /\ PyStr.split n = PyStr.split s
    /\ PyStr.strip n = n
    /\ (forall s' : string,
          normalize_name (VStr s') = Ok n <-> PyStr.split s' = PyStr.split s).
Proof.
  exists (PyStr.join " " (PyStr.split s)).
  pose proof (PyStrFacts.split_words s) as Hws.
  split; [apply normalize_name_str |].
  split; [rewrite normalize_name_str, PyStrFacts.split_join; auto |].
  split; [now apply PyStrFacts.split_join |].
  split; [now apply strip_join |].
  intros s'. rewrite normalize_name_str. split.
  - intros [= H]. apply (f_equal PyStr.split) in H.
    rewrite !PyStrFacts.split_join in H; auto using PyStrFacts.split_words.
  - now intros ->.
Qed.

(** ** What [rps_result] can return *)

(** X2. Whatever two values it is given, [rps_result] returns 0, 1 or -1,
    or raises the [ValueError] for invalid moves, or raises
    [AttributeError]; it raises [AttributeError] exactly when one of the
    values is truthy and not a string, so [None] and the other falsy values
    count as the empty move; the lookup in [beats] never fails. *)
Theorem rps_result_outcomes (move1 move2 : value) :
  ((exists r : Z, rps_result move1 move2 = Ok r /\ (r = 0 \/ r = 1 \/ r = -1))
   \/ rps_result move1 move2 = Raise (ValueError "Moves must be rock, paper, or scissors.")
   \/ rps_result move1 move2 = Raise AttributeError)
  /\ (rps_result move1 move2 = Raise AttributeError
      <-> not_str move1 = true \/ not_str move2 = true)
  /\ (not_str move1 = false -> not_str move2 = false ->
      rps_result move1 move2 = rps_result (VStr (str_of move1)) (VStr (str_of move2)))
  /\ (forall k : string, rps_result move1 move2 <> Raise (KeyError k)).
Proof.
  pose proof (rps_result_cases move1 move2) as Hcases.
  split; [exact Hcases |]. split; [| split].
  - split.
    + intros Hr.
      destruct (not_str move1) eqn:H1; [now left |].
      destruct (not_str move2) eqn:H2; [now right |].
      exfalso. revert Hr. unfold rps_result. rewrite !as_str_or, H1, H2. simpl.
      destruct (negb _ || negb _); [discriminate |].
      destruct (bool_decide _); [discriminate |].
      unfold getitem. destruct (beats !! _); simpl; discriminate.
    + unfold rps_result. rewrite !as_str_or.
      intros [H | H]; rewrite H; simpl; [reflexivity |].
      now destruct (not_str move1).
  - intros H1 H2. unfold rps_result. rewrite !as_str_or, H1, H2. reflexivity.
  - intros k Hk. destruct Hcases as [(r & Hc & _) | [Hc | Hc]]; congruence.
Qed.

Lemma rps_result_outcomes_witness :
  rps_result VNone (VBool false) = rps_result (VStr "") (VStr "")
  /\ (rps_result (VStr "rock") (VInt 7) = Raise AttributeError).
Proof.
  split.
  - apply (rps_result_outcomes VNone (VBool false)); reflexivity.
  - apply (rps_result_outcomes (VStr "rock") (VInt 7)). right. reflexivity.
Defined.

(** ** The leaderboard by name *)

Lemma ltb_leb (a b : string) : String.ltb a b = negb (String.leb b a).
Proof.
  unfold String.ltb, String.leb. rewrite (String.compare_antisym a b).
  now destruct (String.compare b a).
Qed.

Lemma ltb_asym (a b : string) : String.ltb a b = true -> String.ltb b a = false.
Proof.
  unfold String.ltb. rewrite (String.compare_antisym a b).
  now destruct (String.compare b a).
Qed.

Lemma ltb_cotrans (a b c : string) :
  String.ltb a c = true -> String.ltb a b = true \/ String.ltb b c = true.
Proof.
  rewrite !ltb_leb. intros Hac.
  destruct (String.leb b a) eqn:Hba; [| now left].
  destruct (String.leb c b) eqn:Hcb; [| now right].
  exfalso.
  assert (Hca : String.le c a).
  { transitivity b; unfold String.le; [now rewrite Hcb | now rewrite Hba]. }
  unfold String.le in Hca. destruct (String.leb c a); [discriminate | exact Hca].
Qed.

Lemma by_name_eq (lb : odict PlayerStats.t) :
  Views.by_name (leaderboard_views lb) = sort_stable name_key String.ltb (od_values lb).
Proof.
  unfold leaderboard_views, PlayerStats.to_dict. simpl.
  now rewrite list_fmap_id.
Qed.

(** X3. For every registry, [by_name] lists the players in ascending order
    of their lower-cased names, compared as strings: it is a permutation of
    the players, and of [by_score], no player is followed by one with a
    smaller key, and the players whose names differ only in case appear in
    the order of the registry. *)
Theorem by_name_stable_ascending (lb : odict PlayerStats.t) :
  let players := od_values lb in
  let by_name := Views.by_name (leaderboard_views lb) in
  by_name ≡ₚ players
  /\ by_name ≡ₚ Views.by_score (leaderboard_views lb)
  /\ ascending name_key String.ltb by_name
  /\ (forall k : string,
        filter (fun x => name_key x = k) by_name
        = filter (fun x => name_key x = k) players).
Proof.
  intros players by_name.
  assert (Hby : by_name = sort_stable name_key String.ltb players) by apply by_name_eq.
  rewrite Hby. split; [| split; [| split]].
  - apply sort_stable_perm.
  - rewrite by_score_eq, py_sorted_reverse_perm. apply sort_stable_perm.
  - apply sort_stable_ascending; [exact ltb_asym | exact ltb_cotrans].
  - intros k. apply sort_stable_filter. exact ltb_asym.
Qed.

(** ** The registry in every reachable state *)

Lemma registry_Forall (w : world) (P : string * PlayerStats.t -> Prop) :
  wf w ->
  (forall k ps, record_ok (CURRENT_MATCH w) k ps -> P (k, ps)) ->
  Forall P (LEADERBOARD w).
Proof.
  intros Hwf HP. apply Forall_forall. intros [k ps] Hin.
  apply HP, (wf_records w Hwf).
  now apply od_get_elem; [apply (wf_keys w Hwf) |].
Qed.

Lemma total_ext (f g : PlayerStats.t -> Z) (lb : odict PlayerStats.t) :
  Forall (fun kv => f kv.2 = g kv.2) lb -> total f lb = total g lb.
Proof.
  unfold total. induction 1 as [|kv lb Hkv _ IH]; simpl; [reflexivity | now rewrite Hkv, IH].
Qed.

Lemma names_are_keys (w : world) :
  wf w -> PlayerStats.name <$> od_values (LEADERBOARD w) = keys_of (LEADERBOARD w).
Proof.
  intros Hwf. unfold od_values, keys_of. rewrite <- list_fmap_compose.
  apply Forall_fmap_ext_1.
  apply (registry_Forall w (fun kv => (PlayerStats.name ∘ snd) kv = kv.1) Hwf).
  intros k ps Hok. apply Hok.
Qed.

(** X4. In every reachable state the keys of the registry are distinct,
    so a lookup finds every record, and every record carries its key as its
    name, the key is a non-empty name in normal form, and no counter is
    negative. *)
Theorem registry_well_formed (rs : list request) :
  let lb := LEADERBOARD (run rs initial_world) in
  NoDup (keys_of lb)
  /\ (forall k ps, od_get k lb = Some ps <-> (k, ps) ∈ lb)
  /\ Forall (fun kv =>
       PlayerStats.name kv.2 = kv.1
       /\ kv.1 <> ""
       /\ normalize_name (VStr kv.1) = Ok kv.1
       /\ 0 <= PlayerStats.score kv.2
       /\ 0 <= PlayerStats.wins kv.2
       /\ 0 <= PlayerStats.losses kv.2
       /\ 0 <= PlayerStats.ties kv.2
       /\ 0 <= PlayerStats.games_played kv.2) lb.
Proof.
  intros lb. pose proof (reachable_wf rs) as Hwf.
  split; [apply Hwf |]. split; [intros k ps; apply od_get_elem, Hwf |].
  apply (registry_Forall _ _ Hwf).
  intros k ps (H1 & [H2 H2'] & H3 & H4 & H5 & H6 & H7 & _). simpl. auto 10.
Qed.

(** X5. In every reachable state the wins of all players add up to the
    losses of all players and to the scores of all players, and the ties of
    all players add up to an even number. *)
Theorem totals_balance (rs : list request) :
  let lb := LEADERBOARD (run rs initial_world) in
  total PlayerStats.wins lb = total PlayerStats.losses lb
  /\ total PlayerStats.score lb = total PlayerStats.wins lb
  /\ exists n : Z, total PlayerStats.ties lb = 2 * n.
Proof.
  intros lb. destruct (wf_totals _ (reachable_wf rs)) as [Hwl Hties].
  split; [exact Hwl |]. split; [| exact Hties].
  apply total_ext, (inv_scores _ (reachable_inv rs)).
Qed.

(** X6. In every reachable state the rounds a record accounts for, its
    wins, losses and ties together, are at least ten for each match it
    completed, and for a player of the match in progress at least that plus
    the rounds played so far. *)
Theorem games_played_bound (rs : list request) :
  let w := run rs initial_world in
  Forall (fun kv =>
    10 * PlayerStats.games_played kv.2
    <= PlayerStats.wins kv.2 + PlayerStats.losses kv.2 + PlayerStats.ties kv.2
    /\ (in_play kv.1 (CURRENT_MATCH w) = true ->
        10 * PlayerStats.games_played kv.2 + Match.round (CURRENT_MATCH w)
        <= PlayerStats.wins kv.2 + PlayerStats.losses kv.2 + PlayerStats.ties kv.2))
    (LEADERBOARD w).
Proof.
  intros w.
  assert (Hwf : wf w) by apply reachable_wf.
  assert (Hinv : inv w) by apply reachable_inv.
  apply (registry_Forall _ _ Hwf).
  intros k ps (_ & _ & _ & _ & _ & _ & _ & H). simpl.
  rewrite (inv_max w Hinv) in H. unfold rounds_of in H.
  pose proof (inv_len w Hinv) as Hlen.
  destruct (in_play k (CURRENT_MATCH w)); split; try discriminate; try lia.
Qed.

Lemma games_played_bound_witness :
  let w := run [start "Ann" "Bea"; play "rock" "paper"; play "rock" "rock"] initial_world in
  Forall (fun kv =>
    10 * PlayerStats.games_played kv.2
    <= PlayerStats.wins kv.2 + PlayerStats.losses kv.2 + PlayerStats.ties kv.2
    /\ (in_play kv.1 (CURRENT_MATCH w) = true ->
        10 * PlayerStats.games_played kv.2 + Match.round (CURRENT_MATCH w)
        <= PlayerStats.wins kv.2 + PlayerStats.losses kv.2 + PlayerStats.ties kv.2))
    (LEADERBOARD w)
  /\ in_play "Ann" (CURRENT_MATCH w) = true.
Proof.
  split.
  - apply (games_played_bound [start "Ann" "Bea"; play "rock" "paper"; play "rock" "rock"]).
  - vm_compute. reflexivity.
Defined.

(** X7. In every reachable state both views of the leaderboard list every
    registered player exactly once: the names in each view are distinct
    and are the keys of the registry in some order. *)
Theorem leaderboard_lists_each_player_once (rs : list request) :
  let lb := LEADERBOARD (run rs initial_world) in
  let names (l : list PlayerStats.t) := PlayerStats.name <$> l in
  names (Views.by_name (leaderboard_views lb)) ≡ₚ keys_of lb
  /\ names (Views.by_score (leaderboard_views lb)) ≡ₚ keys_of lb
  /\ NoDup (names (Views.by_name (leaderboard_views lb)))
  /\ NoDup (names (Views.by_score (leaderboard_views lb))).
Proof.
  intros lb names. pose proof (reachable_wf rs) as Hwf.
  pose proof (names_are_keys _ Hwf) as Hnames. fold lb in Hnames.
  assert (H1 : names (Views.by_name (leaderboard_views lb)) ≡ₚ keys_of lb).
  { unfold names. now rewrite by_name_eq, sort_stable_perm, Hnames. }
  assert (H2 : names (Views.by_score (leaderboard_views lb)) ≡ₚ keys_of lb).
  { unfold names. now rewrite by_score_eq, py_sorted_reverse_perm, Hnames. }
  split; [exact H1 |]. split; [exact H2 |].
  split; [rewrite H1 | rewrite H2]; apply Hwf.
Qed.

(** ** What a request does to the registry *)

Lemma ensure_key_extends (n : string) (lb : odict PlayerStats.t) :
  exists l : list string, keys_of (ensure_key n lb) = keys_of lb ++ l.
Proof.
  rewrite ensure_key_keys. destruct (od_contains n lb).
  - exists []. now rewrite app_nil_r.
  - now exists [n].
Qed.

(** X8. In every reachable state, whatever the request, the registry only
    grows at its end: the old keys stay where they are, and every old
    record is still there under its key with the same name and with no
    counter smaller than before. *)
Theorem registry_only_grows (rs : list request) (r : request) :
  let lb := LEADERBOARD (run rs initial_world) in
  let lb' := LEADERBOARD (step r (run rs initial_world)) in
  (exists l : list string, keys_of lb' = keys_of lb ++ l)
  /\ (forall k ps,
        od_get k lb = Some ps ->
        exists ps' : PlayerStats.t,
          od_get k lb' = Some ps'
          /\ PlayerStats.name ps' = PlayerStats.name ps
          /\ PlayerStats.score ps <= PlayerStats.score ps'
          /\ PlayerStats.wins ps <= PlayerStats.wins ps'
          /\ PlayerStats.losses ps <= PlayerStats.losses ps'
          /\ PlayerStats.ties ps <= PlayerStats.ties ps'
          /\ PlayerStats.games_played ps <= PlayerStats.games_played ps').
Proof.
  intros lb lb'. subst lb lb'. set (w := run rs initial_world).
  assert (Hinv : inv w) by apply reachable_inv.
  assert (Hsame : forall k ps, od_get k (LEADERBOARD w) = Some ps ->
    exists ps', od_get k (LEADERBOARD w) = Some ps'
      /\ PlayerStats.name ps' = PlayerStats.name ps
      /\ PlayerStats.score ps <= PlayerStats.score ps'
      /\ PlayerStats.wins ps <= PlayerStats.wins ps'
      /\ PlayerStats.losses ps <= PlayerStats.losses ps'
      /\ PlayerStats.ties ps <= PlayerStats.ties ps'
      /\ PlayerStats.games_played ps <= PlayerStats.games_played ps').
  { intros k ps Hget. exists ps. repeat split; [exact Hget | lia..]. }
  assert (Hnil : exists l, keys_of (LEADERBOARD w) = keys_of (LEADERBOARD w) ++ l)
    by (exists []; now rewrite app_nil_r).
  unfold step. destruct (handle_outcome r w Hinv); try (split; assumption); simpl.
  - split; [apply ensure_key_extends |].
    intros k ps Hget. exists ps. rewrite (ensure_key_get_some _ _ _ _ Hget).
    repeat split; lia.
  - split.
    + destruct (ensure_key_extends e1 (LEADERBOARD w)) as (l1 & K1).
      destruct (ensure_key_extends n2 (ensure_key e1 (LEADERBOARD w))) as (l2 & K2).
      exists (l1 ++ l2). now rewrite K2, K1, app_assoc.
    + intros k ps Hget. exists ps.
      rewrite (ensure_key_get_some _ _ _ _ (ensure_key_get_some _ _ _ _ Hget)).
      repeat split; lia.
  - match goal with Hact : Match.active (CURRENT_MATCH w) = true |- _ =>
      destruct (inv_active w Hinv Hact)
        as (_ & _ & a' & b' & Ha & Hb & Hab & _ & _ & Hca & Hcb)
    end.
    assert (a' = a) as -> by congruence. assert (b' = b) as -> by congruence.
    split; [exists []; now rewrite app_nil_r, after_round_keys |].
    intros k ps Hget. rewrite after_round_get, Hget by assumption.
    destruct (played_fields o true (last_round (CURRENT_MATCH w)) ps)
      as (F1 & _ & F3 & F4 & F5 & F6 & F7).
    destruct (played_fields o false (last_round (CURRENT_MATCH w)) ps)
      as (G1 & _ & G3 & G4 & G5 & G6 & G7).
    repeat case_bool_decide; simpl; eexists; (split; [reflexivity |]);
      repeat split; try assumption; try lia;
      destruct (last_round (CURRENT_MATCH w)); lia.
Qed.

Lemma registry_only_grows_witness :
  let w := run [start "Ann" "Bea"] initial_world in
  exists ps' : PlayerStats.t,
    od_get "Bea" (LEADERBOARD (step (play "rock" "paper") w)) = Some ps'
    /\ PlayerStats.wins (PlayerStats.new "Bea") <= PlayerStats.wins ps'.
Proof.
  intros w.
  destruct (registry_only_grows [start "Ann" "Bea"] (play "rock" "paper")) as [_ H].
  destruct (H "Bea" (PlayerStats.new "Bea")) as (ps' & H1 & _ & _ & H2 & _);
    [vm_compute; reflexivity |].
  exists ps'. split; assumption.
Defined.

(** ** The phases of the match *)

(** X9. In every reachable state the match has never been started, or is
    in progress, or is over.  In progress means [active]: below
    [max_rounds], with two distinct registered players and nothing carried
    forward.  Over means [locked_winner_as_p1]: not active, at [max_rounds],
    with the carried-forward name in [p1] and [p2] cleared. *)
Theorem match_phases (rs : list request) :
  let w := run rs initial_world in
  let cm := CURRENT_MATCH w in
  (cm = initial_match \/ Match.active cm = true \/ Match.locked_winner_as_p1 cm = true)
  /\ Match.max_rounds cm = 10
  /\ (Match.active cm = true ->
      Match.locked_winner_as_p1 cm = false
      /\ 0 <= Match.round cm < 10
      /\ exists a b : string,
           Match.p1 cm = Some a /\ Match.p2 cm = Some b /\ a <> b
           /\ od_contains a (LEADERBOARD w) = true
           /\ od_contains b (LEADERBOARD w) = true)
  /\ (Match.locked_winner_as_p1 cm = true ->
      Match.active cm = false
      /\ Match.round cm = 10
      /\ Match.p2 cm = None
      /\ exists a : string, Match.p1 cm = Some a /\ a <> "").
Proof.
  intros w cm.
  assert (Hwf : wf w) by apply reachable_wf.
  assert (Hinv : inv w) by apply reachable_inv.
  pose proof (inv_max w Hinv) as Hmax. pose proof (inv_len w Hinv) as Hlen.
  fold cm in Hmax, Hlen.
  split; [| split; [exact Hmax |]; split].
  - destruct (wf_phase w Hwf) as [H | [H | H]]; [now left | right; now left |].
    right. right. apply H.
  - intros Hactive.
    destruct (inv_active w Hinv Hactive)
      as (Hlt & Hlk & a & b & Ha & Hb & Hab & _ & _ & Hca & Hcb).
    fold cm in Hlt. split; [exact Hlk |]. split; [lia |]. exists a, b. auto.
  - intros Hlk.
    destruct (Match.active cm) eqn:Hactive.
    { destruct (inv_active w Hinv Hactive) as (_ & Hlk' & _). fold cm in Hlk'. congruence. }
    destruct (inv_locked w Hinv Hlk) as (a & Ha & Hna).
    destruct (wf_phase w Hwf) as [H | [H | (_ & _ & Hr & Hp2)]].
    + fold cm in H. rewrite H in Hlk. discriminate.
    + fold cm in H. congruence.
    + fold cm in Hr, Hp2. split; [reflexivity |]. split; [lia |].
      split; [exact Hp2 |]. exists a. split; [exact Ha | apply Hna].
Qed.

Lemma match_phases_witness :
  let w := run (start "Ann" "Bea" :: replicate 10 (play "rock" "paper")) initial_world in
  Match.active (CURRENT_MATCH w) = false
  /\ Match.round (CURRENT_MATCH w) = 10
  /\ Match.p2 (CURRENT_MATCH w) = None
  /\ exists a : string, Match.p1 (CURRENT_MATCH w) = Some a /\ a <> "".
Proof.
  apply (match_phases (start "Ann" "Bea" :: replicate 10 (play "rock" "paper"))).
  vm_compute. reflexivity.
Defined.

(** ** The history of the match *)

(** X10. In every reachable state the entries of [round_history] are
    numbered 1, 2, 3, ... in order, the entries without a winner are the
    rounds that neither round-win counter counts, and while the match is in
    progress each round-win counter is the number of entries won by that
    player. *)
Theorem history_agrees_with_counters (rs : list request) :
  let cm := CURRENT_MATCH (run rs initial_world) in
  (forall (i : nat) (r : Round.t),
      Match.round_history cm !! i = Some r -> Round.round r = Z.of_nat i + 1)
  /\ rounds_won None (Match.round_history cm)
     = Match.round cm - Match.p1_round_wins cm - Match.p2_round_wins cm
  /\ (Match.active cm = true ->
      Match.p1_round_wins cm = rounds_won (Match.p1 cm) (Match.round_history cm)
      /\ Match.p2_round_wins cm = rounds_won (Match.p2 cm) (Match.round_history cm)).
Proof.
  intros cm. pose proof (reachable_wf rs) as Hwf.
  split; [apply Hwf |]. split; [apply Hwf | apply Hwf].
Qed.

Lemma history_agrees_with_counters_witness :
  let cm := CURRENT_MATCH (run [start "Ann" "Bea"; play "rock" "paper"; play "rock" "rock";
                                 play "paper" "rock"] initial_world) in
  (Match.round_history cm !! 2%nat <> None
   /\ forall r, Match.round_history cm !! 2%nat = Some r -> Round.round r = 3)
  /\ Match.p1_round_wins cm = rounds_won (Match.p1 cm) (Match.round_history cm)
  /\ Match.p2_round_wins cm = rounds_won (Match.p2 cm) (Match.round_history cm).
Proof.
  destruct (history_agrees_with_counters
              [start "Ann" "Bea"; play "rock" "paper"; play "rock" "rock"; play "paper" "rock"])
    as (Hnum & _ & Hwon).
  split.
  - split; [vm_compute; discriminate |].
    intros r Hr. exact (Hnum 2%nat r Hr).
  - apply Hwon. vm_compute. reflexivity.
Defined.

(** ** The winner in the summary *)

(** X11. In every reachable state [match_summary] reports no winner and
    no overall tie below [max_rounds].  At [max_rounds] it reports [p1] as
    the winner when the first player of the match won more rounds, and
    otherwise no winner and an overall tie, also when the second player won
    more rounds: [p2] has been cleared by then. *)
Theorem summary_winner (rs : list request) :
  let cm := CURRENT_MATCH (run rs initial_world) in
  let s := match_summary cm in
  (Match.round cm < Match.max_rounds cm ->
   Summary.winner s = None /\ Summary.overall_tie s = false)
  /\ (Match.round cm = Match.max_rounds cm ->
      Match.p2_round_wins cm < Match.p1_round_wins cm ->
      Summary.winner s = Match.p1 cm /\ Summary.winner s <> None
      /\ Summary.overall_tie s = false)
  /\ (Match.round cm = Match.max_rounds cm ->
      Match.p1_round_wins cm <= Match.p2_round_wins cm ->
      Summary.winner s = None /\ Summary.overall_tie s = true).
Proof.
  intros cm s. subst s cm. set (w := run rs initial_world).
  assert (Hwf : wf w) by apply reachable_wf.
  assert (Hinv : inv w) by apply reachable_inv.
  assert (Hover : Match.round (CURRENT_MATCH w) = Match.max_rounds (CURRENT_MATCH w) ->
                  Match.p2 (CURRENT_MATCH w) = None /\ exists a, Match.p1 (CURRENT_MATCH w) = Some a).
  { intros Hr.
    destruct (Match.active (CURRENT_MATCH w)) eqn:Hactive.
    { destruct (inv_active w Hinv Hactive) as (Hlt & _). lia. }
    destruct (wf_phase w Hwf) as [H | [H | (_ & Hlk & _ & Hp2)]].
    - rewrite H in Hr. discriminate.
    - congruence.
    - destruct (inv_locked w Hinv Hlk) as (a & Ha & _). split; [exact Hp2 | now exists a]. }
  unfold match_summary, match_winner. simpl.
  split; [| split].
  - intros Hlt.
    replace (Match.round (CURRENT_MATCH w) <? Match.max_rounds (CURRENT_MATCH w)) with true by lia.
    split; [reflexivity |].
    now replace (Match.round (CURRENT_MATCH w) =? Match.max_rounds (CURRENT_MATCH w))
      with false by lia.
  - intros Hr Hw. destruct (Hover Hr) as (Hp2 & a & Ha).
    replace (Match.round (CURRENT_MATCH w) <? Match.max_rounds (CURRENT_MATCH w)) with false by lia.
    replace (Match.p1_round_wins (CURRENT_MATCH w) >? Match.p2_round_wins (CURRENT_MATCH w)) with true by lia.
    rewrite Ha. split; [reflexivity |]. split; [discriminate |]. apply andb_false_r.
  - intros Hr Hw. destruct (Hover Hr) as (Hp2 & a & Ha).
    replace (Match.round (CURRENT_MATCH w) <? Match.max_rounds (CURRENT_MATCH w)) with false by lia.
    replace (Match.p1_round_wins (CURRENT_MATCH w) >? Match.p2_round_wins (CURRENT_MATCH w)) with false by lia.
    rewrite Hp2.
    replace (Match.round (CURRENT_MATCH w) =? Match.max_rounds (CURRENT_MATCH w)) with true by lia.
    destruct (_ >? _); split; reflexivity.
Qed.

Lemma summary_winner_witness :
  let cm := CURRENT_MATCH (run (start "Ann" "Bea" :: replicate 10 (play "rock" "paper"))
                             initial_world) in
  Match.p1 cm = Some "Bea"
  /\ Summary.winner (match_summary cm) = None
  /\ Summary.overall_tie (match_summary cm) = true.
Proof.
  split; [vm_compute; reflexivity |].
  apply (summary_winner (start "Ann" "Bea" :: replicate 10 (play "rock" "paper")));
    vm_compute; [reflexivity | discriminate].
Defined.

(** ** A round that goes through *)

(** A round on the active match of a reachable state. *)
Lemma step_play_round (rs : list request) (data : gmap string value) (o : Z) :
  let w := run rs initial_world in
  Match.active (CURRENT_MATCH w) = true ->
  rps_result (moves_of data).1 (moves_of data).2 = Ok o ->
  exists a b : string,
    Match.p1 (CURRENT_MATCH w) = Some a
    /\ Match.p2 (CURRENT_MATCH w) = Some b
    /\ a <> b
    /\ od_contains a (LEADERBOARD w) = true
    /\ od_contains b (LEADERBOARD w) = true
    /\ (o = 0 \/ o = 1 \/ o = -1)
    /\ handle (PlayRound data) w
       = (Ok (jsonify (JState (match_summary (CURRENT_MATCH (after_round data o a b w))))),
          after_round data o a b w).
Proof.
  intros w Hactive Hrps.
  assert (Hinv : inv w) by apply reachable_inv.
  destruct (inv_active w Hinv Hactive)
    as (_ & _ & a & b & Ha & Hb & Hab & _ & _ & Hca & Hcb).
  exists a, b. repeat split; try assumption.
  - destruct (rps_result_cases (moves_of data).1 (moves_of data).2)
      as [(r & Hr & Ho) | [Hr | Hr]]; congruence.
  - now apply api_game_play_round_active.
Qed.

Lemma played_eq (o : Z) (first last : bool) (ps : PlayerStats.t) :
  o = 0 \/ o = 1 \/ o = -1 ->
  let won := if first then o =? 1 else o =? -1 in
  let lost := if first then o =? -1 else o =? 1 in
  let add (c : bool) (x : Z) := if c then x + 1 else x in
  played o first last ps
  = PlayerStats.mk (PlayerStats.name ps)
      (add won (PlayerStats.score ps)) (add won (PlayerStats.wins ps))
      (add lost (PlayerStats.losses ps)) (add (o =? 0) (PlayerStats.ties ps))
      (add last (PlayerStats.games_played ps)).
Proof.
  intros [-> | [-> | ->]]; destruct ps, first, last; reflexivity.
Qed.

(** X12. A round with valid moves on the active match of a reachable
    state changes the records of the two players of the match and nothing
    else in the registry.  The winner of the round gets one more score and
    one more win and the other player one more loss, or both get one more
    tie; both get one more game played when the round is the last of the
    match; the names stay, no record is added, the other records are as
    before. *)
Theorem round_updates_two_records (rs : list request) (data : gmap string value) (o : Z) :
  let w := run rs initial_world in
  let w' := step (PlayRound data) w in
  let add (c : bool) (x : Z) := if c then x + 1 else x in
  let last := Match.round (CURRENT_MATCH w) + 1 =? Match.max_rounds (CURRENT_MATCH w) in
  Match.active (CURRENT_MATCH w) = true ->
  rps_result (moves_of data).1 (moves_of data).2 = Ok o ->
  exists (a b : string) (psa psb : PlayerStats.t),
    Match.p1 (CURRENT_MATCH w) = Some a
    /\ Match.p2 (CURRENT_MATCH w) = Some b
    /\ a <> b
    /\ od_get a (LEADERBOARD w) = Some psa
    /\ od_get b (LEADERBOARD w) = Some psb
    /\ od_get a (LEADERBOARD w')
       = Some (PlayerStats.mk (PlayerStats.name psa)
                 (add (o =? 1) (PlayerStats.score psa))
                 (add (o =? 1) (PlayerStats.wins psa))
                 (add (o =? -1) (PlayerStats.losses psa))
                 (add (o =? 0) (PlayerStats.ties psa))
                 (add last (PlayerStats.games_played psa)))
    /\ od_get b (LEADERBOARD w')
       = Some (PlayerStats.mk (PlayerStats.name psb)
                 (add (o =? -1) (PlayerStats.score psb))
                 (add (o =? -1) (PlayerStats.wins psb))
                 (add (o =? 1) (PlayerStats.losses psb))
                 (add (o =? 0) (PlayerStats.ties psb))
                 (add last (PlayerStats.games_played psb)))
    /\ keys_of (LEADERBOARD w') = keys_of (LEADERBOARD w)
    /\ (forall k : string,
          k <> a -> k <> b -> od_get k (LEADERBOARD w') = od_get k (LEADERBOARD w)).
Proof.
  intros w w' add last Hactive Hrps.
  destruct (step_play_round rs data o Hactive Hrps)
    as (a & b & Ha & Hb & Hab & Hca & Hcb & Ho & Hrun).
  fold w in Ha, Hb, Hca, Hcb, Hrun.
  assert (Hw' : w' = after_round data o a b w) by (unfold w', step; now rewrite Hrun).
  destruct (od_get a (LEADERBOARD w)) as [psa|] eqn:Hpsa;
    [| unfold od_contains in Hca; rewrite Hpsa in Hca; discriminate].
  destruct (od_get b (LEADERBOARD w)) as [psb|] eqn:Hpsb;
    [| unfold od_contains in Hcb; rewrite Hpsb in Hcb; discriminate].
  exists a, b, psa, psb. rewrite Hw'.
  split; [exact Ha |]. split; [exact Hb |]. split; [exact Hab |].
  split; [exact Hpsa |]. split; [exact Hpsb |].
  split; [| split; [| split]].
  - rewrite after_round_get, Hpsa by assumption.
    rewrite bool_decide_eq_true_2 by reflexivity. simpl.
    now rewrite (played_eq o true _ psa Ho).
  - rewrite after_round_get, Hpsb by assumption.
    rewrite bool_decide_eq_false_2, bool_decide_eq_true_2 by congruence. simpl.
    now rewrite (played_eq o false _ psb Ho).
  - now apply after_round_keys.
  - intros k Hka Hkb. rewrite after_round_get by assumption.
    now rewrite !bool_decide_eq_false_2 by assumption.
Qed.

Lemma round_updates_two_records_witness :
  let w := run [start "Ann" "Bea"] initial_world in
  let w' := step (play "rock" "paper") w in
  exists (a b : string) (psa psb : PlayerStats.t),
    Match.p1 (CURRENT_MATCH w) = Some a
    /\ Match.p2 (CURRENT_MATCH w) = Some b
    /\ od_get a (LEADERBOARD w) = Some psa
    /\ od_get b (LEADERBOARD w) = Some psb
    /\ od_get b (LEADERBOARD w')
       = Some (PlayerStats.mk (PlayerStats.name psb)
                 (PlayerStats.score psb + 1) (PlayerStats.wins psb + 1)
                 (PlayerStats.losses psb) (PlayerStats.ties psb)
                 (PlayerStats.games_played psb)).
Proof.
  intros w w'.
  destruct (round_updates_two_records [start "Ann" "Bea"]
              {[ "p1_move" := VStr "rock"; "p2_move" := VStr "paper" ]} (-1))
    as (a & b & psa & psb & Ha & Hb & _ & Hpsa & Hpsb & _ & Hb' & _);
    [vm_compute; reflexivity | vm_compute; reflexivity |].
  exists a, b, psa, psb. repeat split; try assumption.
Defined.

(** X13. A round with valid moves on the active match of a reachable state
    answers with the summary of the new state.  The round counter goes up by
    1 and one entry is appended to [round_history], the earlier entries
    untouched: it has the new round number, the two moves as they were
    submitted, not normalised, and the winner of the round, [None] for a tie.
    The round-win counter of the winner goes up by 1.  Unless the round
    counter reaches [max_rounds] the match stays active with the same two
    players. *)
Theorem round_updates_match (rs : list request) (data : gmap string value) (o : Z) :
  let w := run rs initial_world in
  let cm := CURRENT_MATCH w in
  let cm' := CURRENT_MATCH (step (PlayRound data) w) in
  Match.active cm = true ->
  rps_result (moves_of data).1 (moves_of data).2 = Ok o ->
  (handle (PlayRound data) w).1 = Ok (jsonify (JState (match_summary cm')))
  /\ Match.round cm' = Match.round cm + 1
  /\ Match.max_rounds cm' = Match.max_rounds cm
  /\ Match.round_history cm'
     = Match.round_history cm
       ++ [Round.mk (Match.round cm + 1)
             (dict_get data "p1_move" (VStr "")) (dict_get data "p2_move" (VStr ""))
             (if o =? 1 then Match.p1 cm else if o =? -1 then Match.p2 cm else None)]
  /\ Match.p1_round_wins cm' = Match.p1_round_wins cm + (if o =? 1 then 1 else 0)
  /\ Match.p2_round_wins cm' = Match.p2_round_wins cm + (if o =? -1 then 1 else 0)
  /\ (Match.round cm + 1 < Match.max_rounds cm ->
      Match.active cm' = true
      /\ Match.p1 cm' = Match.p1 cm
      /\ Match.p2 cm' = Match.p2 cm
      /\ Match.locked_winner_as_p1 cm' = false).
Proof.
  intros w cm cm' Hactive Hrps. subst cm cm'.
  destruct (step_play_round rs data o Hactive Hrps)
    as (a & b & Ha & Hb & Hab & Hca & Hcb & Ho & Hrun).
  fold w in Hrun.
  assert (Hinv : inv w) by apply reachable_inv.
  destruct (inv_active w Hinv Hactive) as (_ & Hlk & _).
  unfold step. rewrite Hrun. simpl.
  destruct (after_round_match data o a b w)
    as (Hround & Hmax & Hw1 & Hw2 & Hhist & Hcont & _).
  split; [reflexivity |]. split; [exact Hround |]. split; [exact Hmax |].
  split; [exact Hhist |]. split; [exact Hw1 |]. split; [exact Hw2 |].
  intros Hlt. destruct Hcont as (H1 & H2 & H3 & H4); [unfold last_round; lia |].
  rewrite H1, H4. auto.
Qed.

Lemma round_updates_match_witness :
  let w := run [start "Ann" "Bea"] initial_world in
  let cm' := CURRENT_MATCH (step (play " Rock" "PAPER") w) in
  Match.round_history cm'
  = [Round.mk 1 (VStr " Rock") (VStr "PAPER") (Some "Bea")]
  /\ Match.active cm' = true.
Proof.
  intros w cm'.
  destruct (round_updates_match [start "Ann" "Bea"]
              {[ "p1_move" := VStr " Rock"; "p2_move" := VStr "PAPER" ]} (-1))
    as (_ & _ & _ & Hhist & _ & _ & Hcont);
    [vm_compute; reflexivity | vm_compute; reflexivity |].
  split; [exact Hhist |]. apply Hcont. vm_compute. reflexivity.
Defined.

(** ** What the round handler can answer *)

(** X14. In every reachable state [api_game_play_round] answers
    ["No active match."] when no match is active, lets the exception of
    [rps_result] through when a match is active and the moves make it raise,
    and otherwise answers 200 with the summary.  It never answers
    ["Match already finished. Start the next match."], and [ensure_player]
    never raises in it. *)
Theorem play_round_outcomes (rs : list request) (data : gmap string value) :
  let w := run rs initial_world in
  let res := (api_game_play_round data w).1 in
  (Match.active (CURRENT_MATCH w) = false
   /\ res = Ok (jsonify_400 (JError "No active match.")))
  \/ (Match.active (CURRENT_MATCH w) = true
      /\ exists e : exn,
           rps_result (moves_of data).1 (moves_of data).2 = Raise e
           /\ res = Raise e
           /\ (e = ValueError "Moves must be rock, paper, or scissors."
               \/ e = AttributeError))
  \/ (Match.active (CURRENT_MATCH w) = true
      /\ exists (o : Z) (s : Summary.t),
           rps_result (moves_of data).1 (moves_of data).2 = Ok o
           /\ res = Ok (jsonify (JState s))).
Proof.
  intros w res. subst res.
  assert (Hinv : inv w) by apply reachable_inv.
  pose proof (handle_outcome (PlayRound data) w Hinv) as Hout. simpl in Hout.
  inversion Hout; subst.
  - left. split; [assumption | reflexivity].
  - right. left. split; [assumption |]. exists e. auto.
  - right. right. split; [assumption |]. eexists _, _. split; [eassumption | reflexivity].
Qed.

(** ** A whole match *)

Lemma run_cons (r : request) (rs : list request) (w : world) :
  run (r :: rs) w = run rs (step r w).
Proof. reflexivity. Qed.

Lemma run_rounds (ds : list (gmap string value)) (w : world) :
  inv w ->
  Match.active (CURRENT_MATCH w) = true ->
  Forall (fun d => exists o, rps_result (moves_of d).1 (moves_of d).2 = Ok o) ds ->
  Match.round (CURRENT_MATCH w) + Z.of_nat (length ds) <= Match.max_rounds (CURRENT_MATCH w) ->
  Match.round (CURRENT_MATCH (run (PlayRound <$> ds) w))
  = Match.round (CURRENT_MATCH w) + Z.of_nat (length ds)
  /\ Match.max_rounds (CURRENT_MATCH (run (PlayRound <$> ds) w))
     = Match.max_rounds (CURRENT_MATCH w)
  /\ Match.active (CURRENT_MATCH (run (PlayRound <$> ds) w))
     = (Match.round (CURRENT_MATCH w) + Z.of_nat (length ds)
        <? Match.max_rounds (CURRENT_MATCH w)).
Proof.
  revert w. induction ds as [|d ds IH]; intros w Hinv Hactive Hds Hle.
  - destruct (inv_active w Hinv Hactive) as (Hlt & _). simpl.
    rewrite Hactive. split; [lia |]. split; [reflexivity |].
    symmetry. apply Z.ltb_lt. lia.
  - apply Forall_cons in Hds as [(o & Ho) Hds].
    destruct (inv_active w Hinv Hactive) as (Hlt & _ & a & b & Ha & Hb & _).
    assert (Hstep : step (PlayRound d) w = after_round d o a b w).
    { unfold step. simpl. now rewrite (api_game_play_round_active d w a b o). }
    destruct (after_round_match d o a b w) as (Hround & Hmax & _ & _ & _ & Hcont & Hfin).
    rewrite fmap_cons, run_cons, Hstep. simpl length in *.
    destruct (last_round (CURRENT_MATCH w)) eqn:Hlast.
    + unfold last_round in Hlast. assert (ds = []) as ->.
      { destruct ds; [reflexivity |]. simpl length in Hle. lia. }
      simpl. destruct (Hfin eq_refl) as (Hact' & _).
      rewrite Hround, Hmax, Hact'. split; [lia |]. split; [reflexivity |].
      symmetry. apply Z.ltb_ge. lia.
    + unfold last_round in Hlast. destruct (Hcont eq_refl) as (Hact' & _).
      destruct (IH (after_round d o a b w)) as (I1 & I2 & I3).
      * rewrite <- Hstep. now apply step_inv.
      * congruence.
      * exact Hds.
      * lia.
      * rewrite I1, I2, I3, Hround, Hmax.
        split; [lia |]. split; [reflexivity |]. f_equal. lia.
Qed.

(** X15. From a reachable state with an active match, any number of
    rounds with valid moves that stays within [max_rounds] goes through: the
    round counter has advanced by that number, and the match is still active
    exactly when the counter is below [max_rounds].  So a match started
    afresh is over after exactly ten such rounds, not before. *)
Theorem match_lasts_max_rounds (rs : list request) (ds : list (gmap string value)) :
  let w := run rs initial_world in
  let w' := run (PlayRound <$> ds) w in
  Match.active (CURRENT_MATCH w) = true ->
  Forall (fun d => exists o, rps_result (moves_of d).1 (moves_of d).2 = Ok o) ds ->
  Match.round (CURRENT_MATCH w) + Z.of_nat (length ds) <= 10 ->
  Match.round (CURRENT_MATCH w') = Match.round (CURRENT_MATCH w) + Z.of_nat (length ds)
  /\ (Match.active (CURRENT_MATCH w') = true
      <-> Match.round (CURRENT_MATCH w) + Z.of_nat (length ds) < 10).
Proof.
  intros w w' Hactive Hds Hle.
  assert (Hinv : inv w) by apply reachable_inv.
  pose proof (inv_max w Hinv) as Hmax.
  destruct (run_rounds ds w Hinv Hactive Hds) as (H1 & _ & H3); [lia |].
  fold w' in H1, H3. split; [exact H1 |].
  rewrite H3, Hmax. split; [intros H; lia | intros H; apply Z.ltb_lt; exact H].
Qed.

Lemma match_lasts_max_rounds_witness :
  let w := run [start "Ann" "Bea"] initial_world in
  let ds : list (gmap string value) :=
    replicate 10 {[ "p1_move" := VStr "rock"; "p2_move" := VStr "Rock" ]} in
  Match.round (CURRENT_MATCH (run (PlayRound <$> ds) w)) = 0 + Z.of_nat (length ds)
  /\ (Match.active (CURRENT_MATCH (run (PlayRound <$> ds) w)) = true
      <-> 0 + Z.of_nat (length ds) < 10).
Proof.
  apply (match_lasts_max_rounds [start "Ann" "Bea"]
           (replicate 10 {[ "p1_move" := VStr "rock"; "p2_move" := VStr "Rock" ]})).
  - vm_compute. reflexivity.
  - repeat constructor; exists 0; vm_compute; reflexivity.
  - vm_compute. discriminate.
Defined.

(** ** Requests that fail *)

(** X16. In every reachable state, a request that raises leaves the
    globals as they were, and so does a request answered with [ok] false;
    the responses with [ok] false are exactly those with status 400. *)
Theorem failed_request_changes_nothing (rs : list request) (r : request) :
  let w := run rs initial_world in
  (forall e : exn, (handle r w).1 = Raise e -> step r w = w)
  /\ (forall resp : response,
        (handle r w).1 = Ok resp ->
        (ok (resp_body resp) = false <-> resp_status resp = 400)
        /\ (ok (resp_body resp) = false -> step r w = w)).
Proof.
  intros w. assert (Hinv : inv w) by apply reachable_inv.
  unfold step. destruct (handle_outcome r w Hinv); simpl;
    (split; [intros e0 He; try discriminate; reflexivity |]);
    intros resp Hresp; try discriminate;
    injection Hresp as <-; simpl;
    (split; [split; intros; (reflexivity || discriminate) |]);
    intros; (reflexivity || discriminate).
Qed.

Lemma failed_request_changes_nothing_witness :
  let w := run [start "Ann" "Bea"; play "rock" "paper"] initial_world in
  step (PlayRound {[ "p1_move" := VInt 3 ]}) w = w
  /\ step (start "Cy" " Cy ") w = w.
Proof.
  split.
  - apply (failed_request_changes_nothing [start "Ann" "Bea"; play "rock" "paper"]
             (PlayRound {[ "p1_move" := VInt 3 ]})) with AttributeError.
    vm_compute. reflexivity.
  - apply (failed_request_changes_nothing [start "Ann" "Bea"; play "rock" "paper"]
             (start "Cy" " Cy ")) with (jsonify_400 (JError "Invalid player names."));
      vm_compute; reflexivity.
Defined.

(** ** Registering a player *)

Lemma normalize_name_value (v : value) :
  normalize_name v
  = if not_str v then Raise AttributeError
    else Ok (PyStr.join " " (PyStr.split (str_of v))).
Proof.
  unfold normalize_name. rewrite as_str_or.
  destruct (not_str v); simpl; [reflexivity |].
  now rewrite PyStrFacts.split_strip.
Qed.

(** X17. In any state, [api_register_player] leaves the match alone.  A
    name that is truthy and not a string makes it raise [AttributeError],
    which its [except ValueError] does not catch; a name whose normal form
    is empty is answered with status 400; in both cases nothing changes.
    Otherwise the registry is as before when the name is known, and has one
    new record with all counters at zero appended at its end when it is not,
    and the answer carries the record now stored under the name.  Sending
    the same request again changes nothing more. *)
Theorem register_player_effect (data : gmap string value) (w : world) :
  let name := dict_get data "name" (VStr "") in
  let w' := step (RegisterPlayer data) w in
  CURRENT_MATCH w' = CURRENT_MATCH w
  /\ step (RegisterPlayer data) w' = w'
  /\ (not_str name = true -> api_register_player data w = (Raise AttributeError, w))
  /\ (normalize_name name = Ok "" ->
      api_register_player data w
      = (Ok (jsonify_400 (JError "Player name cannot be empty.")), w))
  /\ (forall n : string,
        normalize_name name = Ok n ->
        n <> "" ->
        LEADERBOARD w'
        = (if od_contains n (LEADERBOARD w) then LEADERBOARD w
           else LEADERBOARD w ++ [(n, PlayerStats.mk n 0 0 0 0 0)])
        /\ exists ps : PlayerStats.t,
             od_get n (LEADERBOARD w') = Some ps
             /\ (api_register_player data w).1 = Ok (jsonify (JPlayer ps))).
Proof.
  intros name w'. subst w'.
  set (n := PyStr.join " " (PyStr.split (str_of name))).
  assert (Heq : forall w0,
    api_register_player data w0
    = if not_str name then (Raise AttributeError, w0)
      else if bool_decide (n = "")
      then (Ok (jsonify_400 (JError "Player name cannot be empty.")), w0)
      else (Ok (jsonify (JPlayer
                  match od_get n (LEADERBOARD w0) with
                  | Some ps => ps
                  | None => PlayerStats.new n
                  end)),
            World (ensure_key n (LEADERBOARD w0)) (CURRENT_MATCH w0))).
  { intros w0. rewrite api_register_player_eq. fold name.
    rewrite normalize_name_value. fold n. now destruct (not_str name). }
  unfold step. simpl handle. rewrite !Heq, normalize_name_value. fold n.
  destruct (not_str name) eqn:Hns; simpl.
  { repeat split; try reflexivity; discriminate. }
  destruct (bool_decide (n = "")) eqn:Hn; simpl.
  { apply bool_decide_eq_true in Hn.
    split; [reflexivity |]. split; [reflexivity |]. split; [discriminate |].
    split; [reflexivity |]. intros n' [= <-] Hn'. contradiction. }
  apply bool_decide_eq_false in Hn.
  split; [reflexivity |]. split.
  { rewrite (ensure_key_present n (ensure_key n _)); [reflexivity |].
    rewrite ensure_key_contains. now rewrite bool_decide_eq_true_2. }
  split; [discriminate |]. split; [intros [= H]; congruence |].
  intros n' [= <-] _. split.
  - unfold ensure_key, od_contains.
    destruct (od_get n (LEADERBOARD w)) eqn:Hget; [reflexivity |].
    now apply od_set_fresh.
  - eexists. split; [apply ensure_key_get | reflexivity].
Qed.

Lemma register_player_effect_witness :
  let w := run [register "Ann"] initial_world in
  let data : gmap string value := {[ "name" := VStr " Bea  Lee" ]} in
  LEADERBOARD (step (RegisterPlayer data) w)
  = (if od_contains "Bea Lee" (LEADERBOARD w) then LEADERBOARD w
     else LEADERBOARD w ++ [("Bea Lee", PlayerStats.mk "Bea Lee" 0 0 0 0 0)])
  /\ api_register_player {[ "name" := VInt 7 ]} w = (Raise AttributeError, w).
Proof.
  split.
  - destruct (register_player_effect {[ "name" := VStr " Bea  Lee" ]}
                (run [register "Ann"] initial_world)) as (_ & _ & _ & _ & H).
    apply (H "Bea Lee"); [vm_compute; reflexivity | discriminate].
  - destruct (register_player_effect {[ "name" := VInt 7 ]}
                (run [register "Ann"] initial_world)) as (_ & _ & H & _).
    apply H. reflexivity.
Defined.

(** ** Starting over *)

(** X18. In every reachable state, a start request that is accepted sets
    up a fresh active match: round 0, an empty history, both round-win
    counters at 0, nothing carried forward, [max_rounds] as before, two
    distinct players.  Every record of the registry is exactly as before,
    so a match abandoned in progress keeps the rounds it counted and counts
    no game played; a player not yet registered gets a record with all
    counters at zero. *)
Theorem start_resets_match (rs : list request) (data : gmap string value) (resp : response) :
  let w := run rs initial_world in
  let w' := step (GameStart data) w in
  let cm' := CURRENT_MATCH w' in
  (api_game_start data w).1 = Ok resp ->
  ok (resp_body resp) = true ->
  resp = jsonify (JState (match_summary cm'))
  /\ Match.active cm' = true
  /\ Match.round cm' = 0
  /\ Match.round_history cm' = []
  /\ Match.p1_round_wins cm' = 0
  /\ Match.p2_round_wins cm' = 0
  /\ Match.locked_winner_as_p1 cm' = false
  /\ Match.max_rounds cm' = Match.max_rounds (CURRENT_MATCH w)
  /\ (exists a b : string,
        Match.p1 cm' = Some a /\ Match.p2 cm' = Some b /\ a <> b
        /\ od_contains a (LEADERBOARD w') = true
        /\ od_contains b (LEADERBOARD w') = true)
  /\ (forall k ps, od_get k (LEADERBOARD w) = Some ps -> od_get k (LEADERBOARD w') = Some ps)
  /\ (forall k ps',
        od_get k (LEADERBOARD w) = None ->
        od_get k (LEADERBOARD w') = Some ps' ->
        ps' = PlayerStats.mk k 0 0 0 0 0).
Proof.
  intros w w' cm' Hresp Hok. subst cm' w'.
  assert (Hinv : inv w) by apply reachable_inv.
  unfold step. simpl handle.
  destruct (normalize_name (dict_get data "p1" (VStr ""))) as [n1|e] eqn:Hn1;
    [| rewrite api_game_start_eq, Hn1 in Hresp; discriminate].
  destruct (normalize_name (dict_get data "p2" (VStr ""))) as [n2|e] eqn:Hn2;
    [| rewrite api_game_start_eq, Hn1, Hn2 in Hresp; discriminate].
  destruct (api_game_start_inv data w n1 n2 Hinv Hn1 Hn2) as (e1 & Hsub & Heq).
  rewrite Heq in Hresp. rewrite Heq.
  destruct (bool_decide (e1 = "")) eqn:H1; simpl in Hresp |- *;
    [injection Hresp as <-; discriminate |].
  destruct (bool_decide (n2 = "")) eqn:H2; simpl in Hresp |- *;
    [injection Hresp as <-; discriminate |].
  destruct (bool_decide (e1 = n2)) eqn:H3; simpl in Hresp |- *;
    [injection Hresp as <-; discriminate |].
  apply bool_decide_eq_false in H3.
  injection Hresp as <-.
  split; [reflexivity |]. repeat (split; [reflexivity |]).
  split; [| split].
  - exists e1, n2. rewrite !ensure_key_contains.
    rewrite (bool_decide_eq_true_2 (e1 = e1)), (bool_decide_eq_true_2 (n2 = n2))
      by reflexivity.
    simpl. rewrite orb_true_r. auto.
  - intros k ps Hget. now apply ensure_key_get_some, ensure_key_get_some.
  - intros k ps' Hnone. rewrite !ensure_key_get_new, Hnone.
    repeat case_bool_decide; subst; intros [= <-]; reflexivity.
Qed.

Lemma start_resets_match_witness :
  let w := run [start "Ann" "Bea"; play "rock" "paper"; play "rock" "rock"] initial_world in
  let w' := step (start "Ann" "Cy") w in
  Match.round (CURRENT_MATCH w') = 0
  /\ od_get "Bea" (LEADERBOARD w') = Some (PlayerStats.mk "Bea" 1 1 0 1 0).
Proof.
  intros w w'.
  destruct (start_resets_match
              [start "Ann" "Bea"; play "rock" "paper"; play "rock" "rock"]
              {[ "p1" := VStr "Ann"; "p2" := VStr "Cy" ]}
              (jsonify (JState (match_summary
                 (Match.mk true 0 10 (Some "Ann") (Some "Cy") 0 0 [] false)))))
    as (_ & _ & Hround & _ & _ & _ & _ & _ & _ & Hkeep & _);
    [vm_compute; reflexivity | reflexivity |].
  split; [exact Hround |]. apply Hkeep. vm_compute. reflexivity.
Defined.

(** X19. In a reachable state with a winner carried forward, the first
    player named in a start request plays no part: two requests that name
    the same second player are answered alike and leave the same globals,
    whatever strings, or nothing, they give for the first. *)
Theorem start_after_match_ignores_p1 (rs : list request) (data data' : gmap string value) :
  let w := run rs initial_world in
  Match.locked_winner_as_p1 (CURRENT_MATCH w) = true ->
  not_str (dict_get data "p1" (VStr "")) = false ->
  not_str (dict_get data' "p1" (VStr "")) = false ->
  dict_get data "p2" (VStr "") = dict_get data' "p2" (VStr "") ->
  api_game_start data w = api_game_start data' w.
Proof.
  intros w Hlk H1 H1' H2.
  assert (Hinv : inv w) by apply reachable_inv.
  pose proof (normalize_name_value (dict_get data "p1" (VStr ""))) as Hn1.
  pose proof (normalize_name_value (dict_get data' "p1" (VStr ""))) as Hn1'.
  rewrite H1 in Hn1. rewrite H1' in Hn1'.
  destruct (normalize_name (dict_get data "p2" (VStr ""))) as [n2|e] eqn:Hn2.
  - destruct (api_game_start_inv data w _ n2 Hinv Hn1 Hn2) as (e1 & Hsub & ->).
    rewrite H2 in Hn2.
    destruct (api_game_start_inv data' w _ n2 Hinv Hn1' Hn2) as (e1' & Hsub' & ->).
    rewrite Hlk in Hsub, Hsub'. assert (e1' = e1) as -> by congruence. reflexivity.
  - rewrite !api_game_start_eq, Hn1, Hn1', <- H2, Hn2. reflexivity.
Qed.

Lemma start_after_match_ignores_p1_witness :
  let w := run (start "Ann" "Bea" :: replicate 10 (play "rock" "paper")) initial_world in
  api_game_start {[ "p1" := VStr "Zoe"; "p2" := VStr "Cy" ]} w
  = api_game_start {[ "p2" := VStr "Cy" ]} w.
Proof.
  apply (start_after_match_ignores_p1
           (start "Ann" "Bea" :: replicate 10 (play "rock" "paper"))
           {[ "p1" := VStr "Zoe"; "p2" := VStr "Cy" ]} {[ "p2" := VStr "Cy" ]});
    vm_compute; reflexivity.
Defined.

(** ** Scenarios *)

Example scenario_first_round :
  let w := run [start "Alice" "Bob"; play "rock" "scissors"] initial_world in
  (PlayerStats.score <$> od_get "Alice" (LEADERBOARD w)) = Some 1
  /\ (PlayerStats.losses <$> od_get "Bob" (LEADERBOARD w)) = Some 1
  /\ Match.round (CURRENT_MATCH w) = 1.
Proof. vm_compute. auto. Qed.

Example scenario_six_to_four :
  let w := run (start "Alice" "Bob" :: replicate 6 (play "rock" "scissors")
                ++ replicate 4 (play "rock" "paper")) initial_world in
  Match.active (CURRENT_MATCH w) = false
  /\ Match.p1 (CURRENT_MATCH w) = Some "Alice"
  /\ Match.p2 (CURRENT_MATCH w) = None
  /\ Match.locked_winner_as_p1 (CURRENT_MATCH w) = true
  /\ Summary.winner (match_summary (CURRENT_MATCH w)) = Some "Alice".
Proof. vm_compute. auto 10. Qed.

Example scenario_carry_forward :
  let w := run (start "Alice" "Bob" :: replicate 6 (play "rock" "scissors")
                ++ replicate 4 (play "rock" "paper") ++ [start "Zoe" "Carol"])
             initial_world in
  Match.p1 (CURRENT_MATCH w) = Some "Alice"
  /\ Match.p2 (CURRENT_MATCH w) = Some "Carol"
  /\ od_get "Zoe" (LEADERBOARD w) = None.
Proof. vm_compute. auto. Qed.

Example scenario_empty_p2 :
  api_game_start {[ "p1" := VStr "Alice"; "p2" := VStr "  " ]} initial_world
  = (Ok (jsonify_400 (JError "Invalid player names.")), initial_world).
Proof. vm_compute. reflexivity. Qed.

Example scenario_by_name :
  let w := run [register "bob"; register "Alice"; register "carol"] initial_world in
  PlayerStats.name <$> Views.by_name (leaderboard_views (LEADERBOARD w))
  = ["Alice"; "bob"; "carol"].
Proof. vm_compute. reflexivity. Qed.
